(** * sparql-net: the source dependency graph of [src/source.ts]

    The module declares four families of "sources" (graph, dataset, RDF term,
    tabular).  Every source object owns a mutable array [consumers]; term and
    tabular sources own a second array [observers].  Derived sources register
    themselves ([this]) with their producers in the constructor and
    unregister in [detache].  [isObserved] walks the consumer arrays
    recursively.

    The embedding is a store of objects addressed by reference, with the
    methods written as store transformers.  Arrays are lists; [indexOf]
    returns a JavaScript integer ([-1] when absent) and is modelled in [Z]. *)

From Stdlib Require Import ZArith.
From stdpp Require Import base tactics option list relations strings.

(** ** Results of running a method *)

(** [Done a]: the call returned [a].  [Fuel]: the recursion budget of the
    model ran out before the call returned.  [Fault]: a JavaScript
    [TypeError] (a method called on a reference to nothing, or a method the
    class does not have). *)
Inductive result (A : Type) : Type :=
  | Done (a : A)
  | Fuel
  | Fault.
Arguments Done {A} a.
Arguments Fuel {A}.
Arguments Fault {A}.

(** ** Array primitives of JavaScript used by the module *)

Section arrays.
Context {A : Type} `{EqDecision A}.

(** [Array.prototype.includes] on object references and tokens. *)
Fixpoint includes (l : list A) (x : A) : bool :=
  match l with
  | [] => false
  | y :: l' => if decide (y = x) then true else includes l' x
  end.

(** [Array.prototype.indexOf]: index of the first occurrence, [-1] when
    there is none. *)
Fixpoint indexOf_from (i : Z) (l : list A) (x : A) : Z :=
  match l with
  | [] => (-1)%Z
  | y :: l' => if decide (y = x) then i else indexOf_from (i + 1)%Z l' x
  end.

Definition indexOf (l : list A) (x : A) : Z := indexOf_from 0%Z l x.

(** [Array.prototype.push] (the new length it returns is never used). *)
Definition push (l : list A) (x : A) : list A := l ++ [x].

(** [Array.prototype.splice(start, 1)]: a negative [start] counts from the
    end, a [start] beyond the length removes nothing. *)
Definition splice1 (l : list A) (start : Z) : list A :=
  let len := Z.of_nat (length l) in
  let s := if (start <? 0)%Z then Z.max (len + start) 0 else Z.min start len in
  delete (Z.to_nat s) l.

(** Removal of the first occurrence, the effect of
    [index = l.indexOf(x); (index > -1) && l.splice(index, 1)]. *)
Fixpoint remove_first (l : list A) (x : A) : list A :=
  match l with
  | [] => []
  | y :: l' => if decide (y = x) then l' else y :: remove_first l' x
  end.
End arrays.

(** [Array.prototype.some] with a callback that may itself fail to return:
    elements are visited in index order and the walk stops at the first
    [true]. *)
Fixpoint some {A : Type} (f : A → result bool) (l : list A) : result bool :=
  match l with
  | [] => Done false
  | c :: l' =>
      match f c with
      | Done true => Done true
      | Done false => some f l'
      | Fuel => Fuel
      | Fault => Fault
      end
  end.

(** ** Objects *)

(** A reference to a source object. *)
Abbreviation loc := nat.

(** Opaque values of the libraries [rdf-js] and [sparqlalgebrajs]: they are
    stored in fields and never inspected. *)
Definition Term := string.
Definition Algebra := string.

(** What an observer array can hold: the module pushes [this], callers pass
    tokens of their own (or a source object). *)
Inductive value : Type :=
  | VRef (l : loc)
  | VTok (t : nat).

Global Instance value_eq_dec : EqDecision value.
Proof. solve_decision. Defined.

(** A JavaScript [Map]: the entries live in the internal slot [[MapData]],
    in insertion order; like every object it may also carry own enumerable
    properties, of which a map built with [new Map(...)] and [set] has
    none. *)
Record JSMap (K V : Type) : Type := mkMap {
  mapData : list (K * V);
  ownProps : list (string * V)
}.
Arguments mkMap {K V} mapData ownProps.
Arguments mapData {K V} _.
Arguments ownProps {K V} _.

(** [m.set(k, v)] on the entries: the value of an existing key is replaced
    in place, a new key is appended. *)
Fixpoint Map_set {K V : Type} `{EqDecision K} (k : K) (v : V)
    (data : list (K * V)) : list (K * V) :=
  match data with
  | [] => [(k, v)]
  | (k', v') :: data' =>
      if decide (k' = k) then (k, v) :: data'
      else (k', v') :: Map_set k v data'
  end.

(** [new Map(entries)]: the entries are [set] one after the other, so a
    repeated key keeps its first position and its last value. *)
Definition newMap {K V : Type} `{EqDecision K} (entries : list (K * V))
  : JSMap K V :=
  mkMap (foldl (λ data '(k, v), Map_set k v data) [] entries) [].

(** [m.values()]: the values of the entries. *)
Definition Map_values {K V : Type} (m : JSMap K V) : list V :=
  (mapData m).*2.

(** [Object.values(m)]: the values of the own enumerable string-keyed
    properties; the entries of a map are not properties. *)
Definition Object_values {K V : Type} (m : JSMap K V) : list V :=
  (ownProps m).*2.

Record NamedVarMapping : Type := {
  name : string;
  nameInQuery : string
}.

Record VarMapping : Type := {
  default : option string;
  named : list NamedVarMapping
}.

Record TabularSourceAndMapping : Type := {
  source : loc;
  var : VarMapping
}.

(** The classes of the module, with the fields their constructors set.  The
    four base classes are exported and can be instantiated with any [type]
    string. *)
Inductive kind : Type :=
  | GraphSource (type : string)
  | GraphSelector (datasetSource : loc) (graphName : Term)
  | ConstructQuery (datasetSource : loc) (construct : Algebra)
  | DatasetSource (type : string)
  | DatasetBuilder (defaultGraphSource : loc) (namedGraphSources : JSMap loc loc)
  | DatasetMerge (inputDatasetSources : list loc)
  | SparqlEndpoint (baseURL : string)
  | DefaultSparqlEndpoint
  | RDFTermSource (type : string)
  | RDFTerm (rdfTerm : Term)
  | VarFromSelectQuery (varName : string) (selectQuery : Algebra)
      (datasetSource : loc) (params : JSMap string loc)
  | AllTermsFromDatasetSource (datasetSource : loc)
  | TabularSource (type : string)
  | SelectQuerySource (output : VarMapping) (selectQuery : Algebra)
      (datasetSource : loc) (bindingSources : list TabularSourceAndMapping)
  | DefaultVarAllTerms (datasetSource : loc).

Inductive family : Type := Graph | Dataset | TermF | Tabular.

(** The base class of each class. *)
Definition family_of (k : kind) : family :=
  match k with
  | GraphSource _ | GraphSelector _ _ | ConstructQuery _ _ => Graph
  | DatasetSource _ | DatasetBuilder _ _ | DatasetMerge _
  | SparqlEndpoint _ | DefaultSparqlEndpoint => Dataset
  | RDFTermSource _ | RDFTerm _ | VarFromSelectQuery _ _ _ _
  | AllTermsFromDatasetSource _ => TermF
  | TabularSource _ | SelectQuerySource _ _ _ _ | DefaultVarAllTerms _ => Tabular
  end.

(** The [type] field. *)
Definition type_of (k : kind) : string :=
  match k with
  | GraphSource t | DatasetSource t | RDFTermSource t | TabularSource t => t
  | GraphSelector _ _ => "graphSelector"
  | ConstructQuery _ _ => "constructQuery"
  | DatasetBuilder _ _ => "datasetBuilder"
  | DatasetMerge _ => "datasetMerge"
  | SparqlEndpoint _ => "sparqlEndpoint"
  | DefaultSparqlEndpoint => "defaultSparqlEndpoint"
  | RDFTerm _ => "rdfTerm"
  | VarFromSelectQuery _ _ _ _ => "varFromSelect"
  | AllTermsFromDatasetSource _ => "allTerms"
  | SelectQuerySource _ _ _ _ => "selectQuery"
  | DefaultVarAllTerms _ => "defaultVarAllTerms"
  end.

(** Only [RDFTermSource] and [TabularSource] declare [observers] and the
    observer methods. *)
Definition has_observers (f : family) : bool :=
  match f with
  | TermF | Tabular => true
  | Graph | Dataset => false
  end.

Record object : Type := mkObject {
  okind : kind;
  consumers : list loc;
  observers : list value
}.

(** The store: the object at reference [n] is the [n]-th one allocated. *)
Abbreviation heap := (list object).

(** ** The store monad *)

Definition M (A : Type) : Type := heap → result (A * heap).

Global Instance M_ret : MRet M := λ A a h, Done (a, h).

Global Instance M_bind : MBind M := λ A B k m h,
  match m h with
  | Done (a, h') => k a h'
  | Fuel => Fuel
  | Fault => Fault
  end.

(** Dereference: a method call on a reference to nothing faults. *)
Definition deref (n : loc) : M object :=
  λ h, match h !! n with
       | Some o => Done (o, h)
       | None => Fault
       end.

(** Assignment to the [consumers] and [observers] arrays of an object. *)
Definition set_consumers (n : loc) (cs : list loc) : M unit :=
  λ h, match h !! n with
       | Some o => Done (tt, <[n := mkObject (okind o) cs (observers o)]> h)
       | None => Fault
       end.

Definition set_observers (n : loc) (os : list value) : M unit :=
  λ h, match h !! n with
       | Some o => Done (tt, <[n := mkObject (okind o) (consumers o) os]> h)
       | None => Fault
       end.

(** [super(type)] followed by the field assignments of a constructor: a new
    object with empty [consumers] and [observers]. *)
Definition alloc (k : kind) : M loc :=
  λ h, Done (length h, h ++ [mkObject k [] []]).

(** [forEach] over an array. *)
Fixpoint forEach {A : Type} (l : list A) (f : A → M unit) : M unit :=
  match l with
  | [] => mret tt
  | x :: l' => f x;; forEach l' f
  end.

(** A method the class of the receiver does not have. *)
Definition fault {A : Type} : M A := λ _, Fault.

(** ** The methods of the base classes *)

(** [addConsumer(consumer)], the same body in [GraphSource],
    [DatasetSource], [RDFTermSource] and [TabularSource]:
    [this.consumers.includes(consumer) || this.consumers.push(consumer)]. *)
Definition addConsumer (this consumer : loc) : M unit :=
  o ← deref this;
  if includes (consumers o) consumer then mret tt
  else set_consumers this (push (consumers o) consumer).

(** [removeConsumer(consumer)], the same body in the four base classes:
    [index = this.consumers.indexOf(consumer);
     (index > -1) && this.consumers.splice(index, 1)]. *)
Definition removeConsumer (this consumer : loc) : M unit :=
  o ← deref this;
  let index := indexOf (consumers o) consumer in
  if (index >? -1)%Z then set_consumers this (splice1 (consumers o) index)
  else mret tt.

(** The [observers] array of a term or tabular source; graph and dataset
    sources have neither the field nor the methods that use it. *)
Definition observers_of (this : loc) : M (list value) :=
  o ← deref this;
  if has_observers (family_of (okind o)) then mret (observers o) else fault.

(** [addObserver(consumer)] of [RDFTermSource] and [TabularSource]:
    [this.observers.includes(this) || this.observers.push(this)].
    The argument is not used. *)
Definition addObserver (this : loc) (consumer : value) : M unit :=
  os ← observers_of this;
  if includes os (VRef this) then mret tt
  else set_observers this (push os (VRef this)).

(** [removeObserver(consumer)]:
    [index = this.observers.indexOf(consumer);
     (index > -1) && this.observers.splice(index, 1)]. *)
Definition removeObserver (this : loc) (consumer : value) : M unit :=
  os ← observers_of this;
  let index := indexOf os consumer in
  if (index >? -1)%Z then set_observers this (splice1 os index)
  else mret tt.

(** [hasObserver()]: [this.observers.length > 0]. *)
Definition hasObserver (this : loc) : M bool :=
  os ← observers_of this;
  mret (0 <? length os).

(** [isObserved()].  [GraphSource] and [DatasetSource]:
    [this.consumers.some(c => c.isObserved())]; [RDFTermSource] and
    [TabularSource]:
    [this.hasObserver() || this.consumers.some(c => c.isObserved())].
    Every call frame costs one unit of fuel; the store is only read. *)
Fixpoint isObserved_rec (fuel : nat) (h : heap) (this : loc) : result bool :=
  match fuel with
  | 0 => Fuel
  | S fuel' =>
      match h !! this with
      | None => Fault
      | Some o =>
          if has_observers (family_of (okind o)) then
            if 0 <? length (observers o) then Done true
            else some (isObserved_rec fuel' h) (consumers o)
          else some (isObserved_rec fuel' h) (consumers o)
      end
  end.

Definition isObserved (fuel : nat) (this : loc) : M bool :=
  λ h, match isObserved_rec fuel h this with
       | Done b => Done (b, h)
       | Fuel => Fuel
       | Fault => Fault
       end.

(** [getDatasetSource()]: [undefined] ([None]) in [TabularSource],
    overridden to [this.datasetSource] in the two derived classes. *)
Definition getDatasetSource (this : loc) : M (option loc) :=
  o ← deref this;
  match okind o with
  | TabularSource _ => mret None
  | SelectQuerySource _ _ datasetSource _ => mret (Some datasetSource)
  | DefaultVarAllTerms datasetSource => mret (Some datasetSource)
  | _ => fault
  end.

(** ** Constructors of the derived classes *)

Definition new_GraphSource (type : string) : M loc := alloc (GraphSource type).
Definition new_DatasetSource (type : string) : M loc := alloc (DatasetSource type).
Definition new_RDFTermSource (type : string) : M loc := alloc (RDFTermSource type).
Definition new_TabularSource (type : string) : M loc := alloc (TabularSource type).

Definition new_GraphSelector (datasetSource : loc) (graphName : Term) : M loc :=
  this ← alloc (GraphSelector datasetSource graphName);
  addConsumer datasetSource this;;
  mret this.

Definition new_ConstructQuery (datasetSource : loc) (construct : Algebra) : M loc :=
  this ← alloc (ConstructQuery datasetSource construct);
  addConsumer datasetSource this;;
  mret this.

(** The named graph sources are walked with [Object.values]. *)
Definition new_DatasetBuilder (defaultGraphSource : loc)
    (namedGraphSources : JSMap loc loc) : M loc :=
  this ← alloc (DatasetBuilder defaultGraphSource namedGraphSources);
  addConsumer defaultGraphSource this;;
  forEach (Object_values namedGraphSources)
    (λ namedGraphSource, addConsumer namedGraphSource this);;
  mret this.

Definition new_DatasetMerge (inputDatasetSources : list loc) : M loc :=
  this ← alloc (DatasetMerge inputDatasetSources);
  forEach inputDatasetSources (λ inputSource, addConsumer inputSource this);;
  mret this.

Definition new_SparqlEndpoint (baseURL : string) : M loc :=
  alloc (SparqlEndpoint baseURL).

Definition new_DefaultSparqlEndpoint : M loc := alloc DefaultSparqlEndpoint.

Definition new_RDFTerm (rdfTerm : Term) : M loc := alloc (RDFTerm rdfTerm).

(** The parameters are walked with [for (let source of this.params.values())]. *)
Definition new_VarFromSelectQuery (varName : string) (selectQuery : Algebra)
    (datasetSource : loc) (params : JSMap string loc) : M loc :=
  this ← alloc (VarFromSelectQuery varName selectQuery datasetSource params);
  addConsumer datasetSource this;;
  forEach (Map_values params) (λ source, addConsumer source this);;
  mret this.

Definition new_AllTermsFromDatasetSource (datasetSource : loc) : M loc :=
  this ← alloc (AllTermsFromDatasetSource datasetSource);
  addConsumer datasetSource this;;
  mret this.

Definition new_SelectQuerySource (output : VarMapping) (selectQuery : Algebra)
    (datasetSource : loc) (bindingSources : list TabularSourceAndMapping) : M loc :=
  this ← alloc (SelectQuerySource output selectQuery datasetSource bindingSources);
  addConsumer datasetSource this;;
  forEach bindingSources (λ s, addConsumer (source s) this);;
  mret this.

Definition new_DefaultVarAllTerms (datasetSource : loc) : M loc :=
  this ← alloc (DefaultVarAllTerms datasetSource);
  addConsumer datasetSource this;;
  mret this.

(** ** [detache()] of the derived classes; the base classes and the leaf
    classes have no such method. *)
Definition detache (this : loc) : M unit :=
  o ← deref this;
  match okind o with
  | GraphSelector datasetSource _ => removeConsumer datasetSource this
  | ConstructQuery datasetSource _ => removeConsumer datasetSource this
  | DatasetBuilder defaultGraphSource namedGraphSources =>
      removeConsumer defaultGraphSource this;;
      forEach (Object_values namedGraphSources)
        (λ namedGraphSource, removeConsumer namedGraphSource this)
  | DatasetMerge inputDatasetSources =>
      forEach inputDatasetSources (λ inputSource, removeConsumer inputSource this)
  | VarFromSelectQuery _ _ datasetSource _ => removeConsumer datasetSource this
  | AllTermsFromDatasetSource datasetSource => removeConsumer datasetSource this
  | SelectQuerySource _ _ datasetSource _ => removeConsumer datasetSource this
  | DefaultVarAllTerms datasetSource => removeConsumer datasetSource this
  | GraphSource _ | DatasetSource _ | SparqlEndpoint _ | DefaultSparqlEndpoint
  | RDFTermSource _ | RDFTerm _ | TabularSource _ => fault
  end.

(** Reading the [consumers] field of an object. *)
Definition get_consumers (this : loc) : M (list loc) :=
  o ← deref this; mret (consumers o).

(** The end-to-end scenario: a default endpoint, the table of all its terms,
    an observer attached to and taken off the table, the table detached.
    It returns what [isObserved()] answered at each stage and the final
    consumer array of the endpoint. *)
Definition scenario (fuel : nat) (consumerToken : value)
  : M (bool * (bool * bool) * (bool * bool) * list loc) :=
  endpoint ← new_DefaultSparqlEndpoint;
  table ← new_DefaultVarAllTerms endpoint;
  b0 ← isObserved fuel table;
  addObserver table consumerToken;;
  b1 ← isObserved fuel table;
  b2 ← isObserved fuel endpoint;
  removeObserver table consumerToken;;
  b3 ← isObserved fuel table;
  b4 ← isObserved fuel endpoint;
  detache table;;
  cs ← get_consumers endpoint;
  mret (b0, (b1, b2), (b3, b4), cs).

(** ** Auxiliary notions used in the statements *)

(** The effect of the [includes/push] statement on an array. *)
Definition add_to {A : Type} `{EqDecision A} (x : A) (l : list A) : list A :=
  if includes l x then l else push l x.

Definition on_consumers (f : list loc → list loc) (o : object) : object :=
  mkObject (okind o) (f (consumers o)) (observers o).

Definition on_observers (f : list value → list value) (o : object) : object :=
  mkObject (okind o) (consumers o) (f (observers o)).

(** The first disjunct of [isObserved]: [hasObserver()] where the class has
    it, nothing for graph and dataset sources. *)
Definition directly_observed (o : object) : bool :=
  has_observers (family_of (okind o)) && (0 <? length (observers o)).

(** [c.isObserved()] returns [true]. *)
Definition Observed (h : heap) (c : loc) : Prop :=
  ∃ fuel, isObserved_rec fuel h c = Done true.

(** The consumer edges of the store: [c] is in the [consumers] array of
    [n]. *)
Definition edge (h : heap) (n c : loc) : Prop :=
  ∃ o, h !! n = Some o ∧ c ∈ consumers o.

(** Every reference held in a [consumers] array is to an object of the
    store. *)
Definition closed (h : heap) : Prop := ∀ n c, edge h n c → c < length h.

Definition closedb (h : heap) : bool :=
  forallb (λ o, forallb (λ c, c <? length h) (consumers o)) h.

(** The consumer edges form a directed acyclic graph: no object reaches
    itself along one or more edges. *)
Definition acyclic (h : heap) : Prop := ∀ n, ¬ tc (edge h) n n.

(** A sufficient test: every consumer was allocated after its producer, as
    is the case when edges are only made by constructors. *)
Definition increasing (h : heap) : bool :=
  forallb (λ '(n, o), forallb (λ c, n <? c) (consumers o)) (imap pair h).

(** A table registered as a consumer of itself, with and without an
    observer attached first. *)
Definition self_consumer (observed : bool) (consumerToken : value) : M loc :=
  endpoint ← new_DefaultSparqlEndpoint;
  table ← new_DefaultVarAllTerms endpoint;
  (if observed then addObserver table consumerToken else mret tt);;
  addConsumer table table;;
  mret table.

(** The stores these calls leave behind. *)
Definition cyclic_store (observed : bool) : heap :=
  [ mkObject DefaultSparqlEndpoint [1] [];
    mkObject (DefaultVarAllTerms 0) [1] (if observed then [VRef 1] else []) ].

(** Two tables that consume each other, the second also consumed by an
    observed third: the store after
    [a = new TabularSource("a"); b = new TabularSource("b");
     c = new TabularSource("c"); a.addConsumer(b); b.addConsumer(a);
     b.addConsumer(c); c.addObserver(token)]. *)
Definition observed_cycle_store : heap :=
  [ mkObject (TabularSource "a") [1] [];
    mkObject (TabularSource "b") [0; 2] [];
    mkObject (TabularSource "c") [] [VRef 2] ].

(** The store after [endpoint = new DefaultSparqlEndpoint();
    table = new DefaultVarAllTerms(endpoint); table.addObserver(token)]. *)
Definition observed_table_store : heap :=
  [ mkObject DefaultSparqlEndpoint [1] [];
    mkObject (DefaultVarAllTerms 0) [] [VRef 1] ].

(** The producers [detache()] of each class unregisters from, in the order
    of the calls; [None] for the classes without the method. *)
Definition released (k : kind) : option (list loc) :=
  match k with
  | GraphSelector datasetSource _ => Some [datasetSource]
  | ConstructQuery datasetSource _ => Some [datasetSource]
  | DatasetBuilder defaultGraphSource namedGraphSources =>
      Some (defaultGraphSource :: Object_values namedGraphSources)
  | DatasetMerge inputDatasetSources => Some inputDatasetSources
  | VarFromSelectQuery _ _ datasetSource _ => Some [datasetSource]
  | AllTermsFromDatasetSource datasetSource => Some [datasetSource]
  | SelectQuerySource _ _ datasetSource _ => Some [datasetSource]
  | DefaultVarAllTerms datasetSource => Some [datasetSource]
  | GraphSource _ | DatasetSource _ | SparqlEndpoint _ | DefaultSparqlEndpoint
  | RDFTermSource _ | RDFTerm _ | TabularSource _ => None
  end.

(** The producers the constructor of each class registers with. *)
Definition registered (k : kind) : list loc :=
  match k with
  | GraphSelector datasetSource _ => [datasetSource]
  | ConstructQuery datasetSource _ => [datasetSource]
  | DatasetBuilder defaultGraphSource namedGraphSources =>
      defaultGraphSource :: Object_values namedGraphSources
  | DatasetMerge inputDatasetSources => inputDatasetSources
  | VarFromSelectQuery _ _ datasetSource params =>
      datasetSource :: Map_values params
  | AllTermsFromDatasetSource datasetSource => [datasetSource]
  | SelectQuerySource _ _ datasetSource bindingSources =>
      datasetSource :: (source <$> bindingSources)
  | DefaultVarAllTerms datasetSource => [datasetSource]
  | GraphSource _ | DatasetSource _ | SparqlEndpoint _ | DefaultSparqlEndpoint
  | RDFTermSource _ | RDFTerm _ | TabularSource _ => []
  end.

(** The uniqueness invariant: no consumer array holds a reference twice. *)
Definition unique_consumers (h : heap) : Prop :=
  ∀ p o, h !! p = Some o → NoDup (consumers o).

(** [h1] is [h] with some references taken out of consumer arrays, and
    nothing else changed. *)
Definition shrinks (h h1 : heap) : Prop :=
  length h1 = length h ∧
  ∀ p o, h !! p = Some o →
    ∃ o1, h1 !! p = Some o1 ∧ okind o1 = okind o ∧ observers o1 = observers o ∧
          sublist (consumers o1) (consumers o).

Definition unique_consumersb (h : heap) : bool :=
  forallb (λ o, bool_decide (NoDup (consumers o))) h.

(** The common shape of the constructors: allocate, then register [this]
    with every producer in turn. *)
Definition construct (k : kind) : M loc :=
  this ← alloc k;
  forEach (registered k) (λ p, addConsumer p this);;
  mret this.

(** [new C(...)] for the class and arguments recorded in [k]. *)
Definition new (k : kind) : M loc :=
  match k with
  | GraphSource type => new_GraphSource type
  | GraphSelector datasetSource graphName =>
      new_GraphSelector datasetSource graphName
  | ConstructQuery datasetSource construct =>
      new_ConstructQuery datasetSource construct
  | DatasetSource type => new_DatasetSource type
  | DatasetBuilder defaultGraphSource namedGraphSources =>
      new_DatasetBuilder defaultGraphSource namedGraphSources
  | DatasetMerge inputDatasetSources => new_DatasetMerge inputDatasetSources
  | SparqlEndpoint baseURL => new_SparqlEndpoint baseURL
  | DefaultSparqlEndpoint => new_DefaultSparqlEndpoint
  | RDFTermSource type => new_RDFTermSource type
  | RDFTerm rdfTerm => new_RDFTerm rdfTerm
  | VarFromSelectQuery varName selectQuery datasetSource params =>
      new_VarFromSelectQuery varName selectQuery datasetSource params
  | AllTermsFromDatasetSource datasetSource =>
      new_AllTermsFromDatasetSource datasetSource
  | TabularSource type => new_TabularSource type
  | SelectQuerySource output selectQuery datasetSource bindingSources =>
      new_SelectQuerySource output selectQuery datasetSource bindingSources
  | DefaultVarAllTerms datasetSource => new_DefaultVarAllTerms datasetSource
  end.

(** The store after the consumer array of every producer in [ps] went
    through [F], one producer after the other (a producer listed twice goes
    through it twice). *)
Definition sweep (F : list loc → list loc) (ps : list loc) (h : heap) : heap :=
  foldl (λ h p, alter (on_consumers F) p h) h ps.

(** [this] added to, or removed from, the consumer arrays of [ps]. *)
Definition register (this : loc) (ps : list loc) (h : heap) : heap :=
  sweep (add_to this) ps h.

Definition unregister (this : loc) (ps : list loc) (h : heap) : heap :=
  sweep (λ cs, remove_first cs this) ps h.

(** All references of [ps] are to objects of the store. *)
Definition allocated (ps : list loc) (h : heap) : bool :=
  forallb (λ p, p <? length h) ps.

(** ** Clients *)

(** The references among the arguments of a constructor call. *)
Definition arguments (k : kind) : list loc :=
  match k with
  | GraphSelector datasetSource _ => [datasetSource]
  | ConstructQuery datasetSource _ => [datasetSource]
  | DatasetBuilder defaultGraphSource namedGraphSources =>
      defaultGraphSource :: Object_values namedGraphSources
        ++ Map_values namedGraphSources ++ (mapData namedGraphSources).*1
  | DatasetMerge inputDatasetSources => inputDatasetSources
  | VarFromSelectQuery _ _ datasetSource params =>
      datasetSource :: Map_values params ++ Object_values params
  | AllTermsFromDatasetSource datasetSource => [datasetSource]
  | SelectQuerySource _ _ datasetSource bindingSources =>
      datasetSource :: (source <$> bindingSources)
  | DefaultVarAllTerms datasetSource => [datasetSource]
  | GraphSource _ | DatasetSource _ | SparqlEndpoint _ | DefaultSparqlEndpoint
  | RDFTermSource _ | RDFTerm _ | TabularSource _ => []
  end.

(** A client can only pass objects it holds, hence objects of the store. *)
Definition holds (ps : list loc) : M unit :=
  λ h, if allocated ps h then Done (tt, h) else Fault.

(** A call a client of the module can make that changes the store. *)
Inductive call : Type :=
  | New (k : kind)
  | AddConsumer (p c : loc)
  | RemoveConsumer (p c : loc)
  | AddObserver (n : loc) (v : value)
  | RemoveObserver (n : loc) (v : value)
  | Detache (n : loc).

Definition exec (c : call) : M unit :=
  match c with
  | New k => holds (arguments k);; new k;; mret tt
  | AddConsumer p c => holds [c];; addConsumer p c
  | RemoveConsumer p c => holds [c];; removeConsumer p c
  | AddObserver n v => addObserver n v
  | RemoveObserver n v => removeObserver n v
  | Detache n => detache n
  end.

Definition run (cs : list call) : M unit := forEach cs exec.

(** The observer array of every object is empty or holds the object itself
    and nothing else. *)
Definition self_observed (h : heap) : Prop :=
  ∀ n o, h !! n = Some o → observers o = [] ∨ observers o = [VRef n].

(** The objects of [h] are still in [h1], with the class and fields they
    were constructed with. *)
Definition kinds_kept (h h1 : heap) : Prop :=
  ∀ n o, h !! n = Some o → ∃ o1, h1 !! n = Some o1 ∧ okind o1 = okind o.

(** What [getDatasetSource()] of a tabular class returns. *)
Definition dataset_of (k : kind) : option loc :=
  match k with
  | SelectQuerySource _ _ datasetSource _ => Some datasetSource
  | DefaultVarAllTerms datasetSource => Some datasetSource
  | _ => None
  end.

(** ** Example programs *)

(** A fresh source of class [k], an observer attached and taken off again;
    the answer of [hasObserver()] and the observer array at the end. *)
Definition observer_round_trip (k : kind) (o : value) : M (bool * list value) :=
  s ← new k;
  addObserver s o;;
  removeObserver s o;;
  b ← hasObserver s;
  os ← observers_of s;
  mret (b, os).

(** An endpoint, a term used as graph name, two graphs selected from the
    endpoint. *)
Definition two_graphs_store : heap :=
  [ mkObject DefaultSparqlEndpoint [2; 3] [];
    mkObject (RDFTerm "g1") [] [];
    mkObject (GraphSelector 0 "g0") [] [];
    mkObject (GraphSelector 0 "g1") [] [] ].

(** A query variable with one parameter: construction, then [detache()];
    the consumer arrays of the parameter before and after, and of the
    endpoint after. *)
Definition param_release : M (loc * list loc * list loc * list loc) :=
  endpoint ← new_DefaultSparqlEndpoint;
  param ← new_RDFTerm "p";
  v ← new_VarFromSelectQuery "x" "q" endpoint (newMap [("a", param)]);
  before ← get_consumers param;
  detache v;;
  after ← get_consumers param;
  ce ← get_consumers endpoint;
  mret (v, before, after, ce).

(** The same for a select query with one binding source. *)
Definition binding_release : M (loc * list loc * list loc * list loc) :=
  endpoint ← new_DefaultSparqlEndpoint;
  table ← new_DefaultVarAllTerms endpoint;
  q ← new_SelectQuerySource (Build_VarMapping None []) "q" endpoint
         [Build_TabularSourceAndMapping table (Build_VarMapping (Some "x") [])];
  before ← get_consumers table;
  detache q;;
  after ← get_consumers table;
  ce ← get_consumers endpoint;
  mret (q, before, after, ce).


(** The invariants of the stores a client can build. *)
Definition well_formed (h : heap) : Prop :=
  unique_consumers h ∧ closed h ∧ self_observed h.


(** The [consumers] array of the object at [p]. *)
Definition consumers_at (h : heap) (p : loc) : list loc :=
  match h !! p with
  | Some o => consumers o
  | None => []
  end.

(** The answer [b] of [isObserved()] on the object [o] at [n] is the
    disjunction the method computes: with [hasObserver()] for term and
    tabular sources, without it for graph and dataset sources. *)
Definition answers_disjunction (h : heap) (n : loc) (o : object) (b : bool) : Prop :=
  match family_of (okind o) with
  | TermF | Tabular =>
      b = true ↔
      hasObserver n h = Done (true, h) ∨ ∃ c, c ∈ consumers o ∧ Observed h c
  | Graph | Dataset =>
      b = true ↔ ∃ c, c ∈ consumers o ∧ Observed h c
  end.

(** Some source downstream of [n] along consumer edges, [n] included,
    answers [true] to [hasObserver()]. *)
Definition observer_downstream (h : heap) (n : loc) : Prop :=
  ∃ m, rtc (edge h) n m ∧ hasObserver m h = Done (true, h).

(** The calls that take references out of arrays. *)
Definition removal (c : call) : Prop :=
  match c with
  | RemoveConsumer _ _ | RemoveObserver _ _ | Detache _ => True
  | New _ | AddConsumer _ _ | AddObserver _ _ => False
  end.

(** * Properties *)

(** ** Arrays *)

Section array_facts.
Context {A : Type} `{EqDecision A}.
Implicit Types (l : list A) (x y : A).

Lemma includes_true l x : includes l x = true ↔ x ∈ l.
Proof.
  induction l as [|y l IH]; simpl.
  - split; [discriminate | intros H%elem_of_nil; contradiction].
  - rewrite elem_of_cons. destruct (decide (y = x)) as [->|Hne].
    + split; auto.
    + rewrite IH. split; [auto | intros [?|?]; congruence].
Qed.

Lemma includes_false l x : includes l x = false ↔ x ∉ l.
Proof.
  rewrite <- includes_true. destruct (includes l x); split; congruence.
Qed.

Lemma remove_first_notin l x : x ∉ l → remove_first l x = l.
Proof.
  induction l as [|y l IH]; simpl; [done|].
  intros Hn. destruct (decide (y = x)) as [->|Hne].
  - exfalso. apply Hn. left.
  - f_equal. apply IH. intros ?. apply Hn. by right.
Qed.

Lemma remove_first_sublist l x : sublist (remove_first l x) l.
Proof.
  induction l as [|y l IH]; simpl; [constructor|].
  destruct (decide (y = x)).
  - by apply sublist_cons.
  - by apply sublist_skip.
Qed.

Lemma remove_first_NoDup l x : NoDup l → x ∉ remove_first l x.
Proof.
  induction 1 as [|y l Hy Hl IH]; simpl.
  - apply not_elem_of_nil.
  - destruct (decide (y = x)) as [->|Hne]; [done|].
    rewrite elem_of_cons. intros [?|?]; [congruence | by apply IH].
Qed.

(** [indexOf] finds the position that [remove_first] drops. *)
Lemma indexOf_from_cases (i : Z) l x :
  ((x ∉ l) ∧ indexOf_from i l x = (-1)%Z) ∨
  (∃ k : nat, x ∈ l ∧ k < length l ∧ l !! k = Some x ∧
     indexOf_from i l x = (i + Z.of_nat k)%Z ∧ delete k l = remove_first l x).
Proof.
  revert i. induction l as [|y l IH]; intros i; simpl.
  - left. split; [apply not_elem_of_nil | done].
  - destruct (decide (y = x)) as [->|Hne].
    + right. exists 0. repeat split; [left | lia | lia].
    + destruct (IH (i + 1)%Z) as [[Hn Hi]|(k & Hin & Hk & Hl & Hi & Hd)].
      * left. split; [|done]. rewrite elem_of_cons. intros [?|?]; congruence.
      * right. exists (S k). simpl. repeat split; [by right | lia | done | lia |].
        by rewrite Hd.
Qed.

Lemma indexOf_absent l x : x ∉ l → indexOf l x = (-1)%Z.
Proof.
  intros Hn. unfold indexOf.
  destruct (indexOf_from_cases 0 l x) as [[_ ?]|(k & Hin & _)]; done.
Qed.

Lemma indexOf_present l x : x ∈ l → (0 ≤ indexOf l x < Z.of_nat (length l))%Z.
Proof.
  intros Hin. unfold indexOf.
  destruct (indexOf_from_cases 0 l x) as [[Hn _]|(k & _ & Hk & _ & -> & _)];
    [done | lia].
Qed.

(** The two statements of [removeConsumer] and [removeObserver] together
    remove the first occurrence. *)
Lemma indexOf_splice1 l x :
  (if (indexOf l x >? -1)%Z then splice1 l (indexOf l x) else l)
  = remove_first l x.
Proof.
  unfold indexOf, splice1.
  destruct (indexOf_from_cases 0 l x) as [[Hn ->]|(k & _ & Hk & _ & -> & Hd)].
  - simpl. by rewrite remove_first_notin.
  - replace (0 + Z.of_nat k >? -1)%Z with true by lia.
    replace (0 + Z.of_nat k <? 0)%Z with false by lia.
    rewrite Z.min_l by lia. rewrite Z.add_0_l, Nat2Z.id. done.
Qed.

End array_facts.

(** ** Maps *)

Section map_facts.
Context {K V : Type} `{EqDecision K}.
Implicit Types (data : list (K * V)) (k : K) (v : V).

Lemma Map_set_keys k v data :
  (Map_set k v data).*1 = if includes data.*1 k then data.*1 else data.*1 ++ [k].
Proof.
  induction data as [|[k' v'] data IH]; [done|].
  cbn [Map_set]. rewrite fmap_cons. cbn [fst includes].
  destruct (decide (k' = k)) as [->|Hne]; [by rewrite fmap_cons|].
  rewrite fmap_cons, IH. cbn [fst]. by destruct (includes data.*1 k).
Qed.

Lemma Map_set_NoDup k v data : NoDup data.*1 → NoDup (Map_set k v data).*1.
Proof.
  intros Hnd. rewrite Map_set_keys. destruct (includes data.*1 k) eqn:Hk; [done|].
  apply NoDup_app. split; [done|]. split; [|apply NoDup_singleton].
  intros x Hx ->%list_elem_of_singleton. by apply includes_false in Hk.
Qed.

(** A map built by [new Map(entries)] has one entry per key. *)
Lemma newMap_keys_NoDup (entries : list (K * V)) :
  NoDup (mapData (newMap entries)).*1.
Proof.
  unfold newMap. simpl.
  assert (∀ data, NoDup data.*1 →
    NoDup (foldl (λ data '(k, v), Map_set k v data) data entries).*1) as Hfold.
  { induction entries as [|[k v] entries IH]; intros data Hnd; simpl; [done|].
    by apply IH, Map_set_NoDup. }
  apply Hfold. constructor.
Qed.

(** A repeated key keeps its first position and its last value. *)
Lemma newMap_repeated_key k v v' :
  Map_values (newMap [(k, v); (k, v')]) = [v'].
Proof. unfold newMap, Map_values. simpl. by rewrite decide_True. Qed.
End map_facts.

(** ** The store after a method call *)

Lemma alter_lookup_id (f : object → object) (h : heap) p o :
  h !! p = Some o → f o = o → alter f p h = h.
Proof.
  intros Hp Hf. apply list_eq. intros j. rewrite list_lookup_alter.
  case_decide; [subst j; rewrite Hp; simpl; by rewrite Hf | done].
Qed.

Lemma insert_alter_lookup (f : object → object) (h : heap) p o :
  h !! p = Some o → <[p := f o]> h = alter f p h.
Proof.
  intros Hp. apply list_eq. intros j.
  rewrite list_lookup_alter. destruct (decide (p = j)) as [<-|Hne].
  - rewrite list_lookup_insert_eq by (by eapply lookup_lt_Some). by rewrite Hp.
  - by rewrite list_lookup_insert_ne.
Qed.

Lemma addConsumer_run p c (h : heap) :
  is_Some (h !! p) →
  addConsumer p c h = Done (tt, alter (on_consumers (add_to c)) p h).
Proof.
  intros [o Hp]. unfold addConsumer, mbind, M_bind, deref. rewrite Hp.
  destruct (includes (consumers o) c) eqn:Hi.
  - unfold mret, M_ret. do 2 f_equal. symmetry.
    apply (alter_lookup_id _ _ _ o Hp).
    unfold on_consumers, add_to. rewrite Hi. by destruct o.
  - unfold set_consumers. rewrite Hp. do 2 f_equal.
    rewrite <- (insert_alter_lookup _ _ _ o Hp).
    unfold on_consumers, add_to. by rewrite Hi.
Qed.

Lemma addConsumer_fault p c (h : heap) : h !! p = None → addConsumer p c h = Fault.
Proof. intros Hp. unfold addConsumer, mbind, M_bind, deref. by rewrite Hp. Qed.

Lemma removeConsumer_run p c (h : heap) :
  is_Some (h !! p) →
  removeConsumer p c h
  = Done (tt, alter (on_consumers (λ cs, remove_first cs c)) p h).
Proof.
  intros [o Hp]. unfold removeConsumer, mbind, M_bind, deref. rewrite Hp.
  pose proof (indexOf_splice1 (consumers o) c) as Hs. simpl.
  destruct (indexOf (consumers o) c >? -1)%Z.
  - unfold set_consumers. rewrite Hp. do 2 f_equal.
    rewrite <- (insert_alter_lookup _ _ _ o Hp).
    unfold on_consumers. by rewrite Hs.
  - unfold mret, M_ret. do 2 f_equal. symmetry.
    apply (alter_lookup_id _ _ _ o Hp).
    unfold on_consumers. rewrite <- Hs. by destruct o.
Qed.

Lemma removeConsumer_fault p c (h : heap) :
  h !! p = None → removeConsumer p c h = Fault.
Proof. intros Hp. unfold removeConsumer, mbind, M_bind, deref. by rewrite Hp. Qed.

Lemma observers_of_run n (h : heap) o :
  h !! n = Some o →
  observers_of n h
  = if has_observers (family_of (okind o)) then Done (observers o, h) else Fault.
Proof.
  intros Hn. unfold observers_of, mbind, M_bind, deref. rewrite Hn.
  by destruct (has_observers _).
Qed.

Lemma addObserver_run n v (h : heap) o :
  h !! n = Some o → has_observers (family_of (okind o)) = true →
  addObserver n v h = Done (tt, alter (on_observers (add_to (VRef n))) n h).
Proof.
  intros Hn Hf. unfold addObserver, mbind, M_bind.
  rewrite (observers_of_run _ _ _ Hn), Hf.
  destruct (includes (observers o) (VRef n)) eqn:Hi.
  - unfold mret, M_ret. do 2 f_equal. symmetry.
    apply (alter_lookup_id _ _ _ o Hn).
    unfold on_observers, add_to. rewrite Hi. by destruct o.
  - unfold set_observers. rewrite Hn. do 2 f_equal.
    rewrite <- (insert_alter_lookup _ _ _ o Hn).
    unfold on_observers, add_to. by rewrite Hi.
Qed.

Lemma removeObserver_run n v (h : heap) o :
  h !! n = Some o → has_observers (family_of (okind o)) = true →
  removeObserver n v h
  = Done (tt, alter (on_observers (λ os, remove_first os v)) n h).
Proof.
  intros Hn Hf. unfold removeObserver, mbind, M_bind.
  rewrite (observers_of_run _ _ _ Hn), Hf.
  pose proof (indexOf_splice1 (observers o) v) as Hs. simpl.
  destruct (indexOf (observers o) v >? -1)%Z.
  - unfold set_observers. rewrite Hn. do 2 f_equal.
    rewrite <- (insert_alter_lookup _ _ _ o Hn).
    unfold on_observers. by rewrite Hs.
  - unfold mret, M_ret. do 2 f_equal. symmetry.
    apply (alter_lookup_id _ _ _ o Hn).
    unfold on_observers. rewrite <- Hs. by destruct o.
Qed.

Lemma hasObserver_run n (h : heap) o :
  h !! n = Some o → has_observers (family_of (okind o)) = true →
  hasObserver n h = Done (0 <? length (observers o), h).
Proof.
  intros Hn Hf. unfold hasObserver, mbind, M_bind.
  by rewrite (observers_of_run _ _ _ Hn), Hf.
Qed.

Lemma observer_methods_absent n v (h : heap) o :
  h !! n = Some o → has_observers (family_of (okind o)) = false →
  addObserver n v h = Fault ∧ removeObserver n v h = Fault ∧ hasObserver n h = Fault.
Proof.
  intros Hn Hf. unfold addObserver, removeObserver, hasObserver, mbind, M_bind.
  by rewrite (observers_of_run _ _ _ Hn), Hf.
Qed.

(** ** [some] *)

Section some_facts.
Context {A : Type}.
Implicit Types (f g : A → result bool) (l : list A).

Lemma some_false f l : some f l = Done false ↔ ∀ c, c ∈ l → f c = Done false.
Proof.
  induction l as [|x l IH]; simpl.
  - split; [intros _ c Hc%elem_of_nil; contradiction | done].
  - destruct (f x) as [[|]| |] eqn:Hx.
    + split; [discriminate|]. intros Hall.
      specialize (Hall x (list_elem_of_here _ _)). congruence.
    + rewrite IH. split.
      * intros Hall c [->|Hc]%elem_of_cons; auto.
      * intros Hall c Hc. apply Hall. by right.
    + split; [discriminate|]. intros Hall.
      specialize (Hall x (list_elem_of_here _ _)). congruence.
    + split; [discriminate|]. intros Hall.
      specialize (Hall x (list_elem_of_here _ _)). congruence.
Qed.

Lemma some_true f l : some f l = Done true → ∃ c, c ∈ l ∧ f c = Done true.
Proof.
  induction l as [|x l IH]; simpl; [discriminate|].
  destruct (f x) as [[|]| |] eqn:Hx; try discriminate.
  - intros _. exists x. split; [left | done].
  - intros (c & Hc & Hfc)%IH. exists c. split; [by right | done].
Qed.

Lemma some_fault f l : some f l = Fault → ∃ c, c ∈ l ∧ f c = Fault.
Proof.
  induction l as [|x l IH]; simpl; [discriminate|].
  destruct (f x) as [[|]| |] eqn:Hx; try discriminate.
  - intros (c & Hc & Hfc)%IH. exists c. split; [by right | done].
  - intros _. exists x. split; [left | done].
Qed.

Lemma some_total f l :
  (∀ c, c ∈ l → ∃ b, f c = Done b) → ∃ b, some f l = Done b.
Proof.
  induction l as [|x l IH]; simpl; intros Hall; [by eexists|].
  destruct (Hall x (list_elem_of_here _ _)) as [[|] ->]; [by eexists|].
  apply IH. intros c Hc. apply Hall. by right.
Qed.

Lemma some_mono f g l b :
  (∀ c b', c ∈ l → f c = Done b' → g c = Done b') →
  some f l = Done b → some g l = Done b.
Proof.
  induction l as [|x l IH]; simpl; intros Hfg; [done|].
  destruct (f x) as [[|]| |] eqn:Hx; try discriminate.
  - rewrite (Hfg x true (list_elem_of_here _ _) Hx). done.
  - rewrite (Hfg x false (list_elem_of_here _ _) Hx).
    apply IH. intros c b' Hc. apply Hfg. by right.
Qed.
End some_facts.

(** ** [isObserved] *)

Lemma isObserved_rec_S fuel (h : heap) n o :
  h !! n = Some o →
  isObserved_rec (S fuel) h n
  = if directly_observed o then Done true
    else some (isObserved_rec fuel h) (consumers o).
Proof.
  intros Hn. simpl. rewrite Hn. unfold directly_observed.
  by destruct (has_observers _), (0 <? _).
Qed.

(** More fuel does not change an answer. *)
Lemma isObserved_rec_mono fuel fuel' (h : heap) n b :
  fuel ≤ fuel' → isObserved_rec fuel h n = Done b → isObserved_rec fuel' h n = Done b.
Proof.
  revert fuel' n b. induction fuel as [|fuel IH]; intros fuel' n b Hle; [done|].
  destruct fuel' as [|fuel']; [lia|].
  destruct (h !! n) as [o|] eqn:Hn; [|simpl; by rewrite Hn].
  rewrite !(isObserved_rec_S _ _ _ _ Hn).
  destruct (directly_observed o); [done|].
  apply some_mono. intros c b' _. apply IH. lia.
Qed.

Lemma isObserved_rec_unfold fuel (h : heap) n o b :
  h !! n = Some o →
  isObserved_rec fuel h n = Done b →
  (b = true ↔ directly_observed o = true ∨ ∃ c, c ∈ consumers o ∧ Observed h c).
Proof.
  intros Hn Hrun. destruct fuel as [|fuel]; [done|].
  rewrite (isObserved_rec_S _ _ _ _ Hn) in Hrun.
  destruct (directly_observed o).
  - split; [by left | congruence].
  - destruct b.
    + split; [|done]. intros _. right.
      apply some_true in Hrun as (c & Hc & Hrun). exists c. split; [done|].
      by exists fuel.
    + split; [done|]. intros [?|(c & Hc & fuel' & Hrun')]; [done|].
      rewrite some_false in Hrun. specialize (Hrun c Hc).
      pose proof (isObserved_rec_mono _ (fuel `max` fuel') _ _ _
                    (Nat.le_max_l _ _) Hrun) as H1.
      pose proof (isObserved_rec_mono _ (fuel `max` fuel') _ _ _
                    (Nat.le_max_r _ _) Hrun') as H2.
      congruence.
Qed.

Lemma isObserved_run fuel n (h : heap) b :
  isObserved fuel n h = Done (b, h) ↔ isObserved_rec fuel h n = Done b.
Proof.
  unfold isObserved. destruct (isObserved_rec fuel h n); split; congruence.
Qed.

Lemma alloc_run k (h : heap) :
  alloc k h = Done (length h, h ++ [mkObject k [] []]).
Proof. done. Qed.

Lemma lookup_alloc k (h : heap) :
  (h ++ [mkObject k [] []]) !! length h = Some (mkObject k [] []).
Proof. by rewrite lookup_app_r, Nat.sub_diag by lia. Qed.

(** ** The consumer graph *)

Lemma closedb_closed (h : heap) : closedb h = true → closed h.
Proof.
  unfold closedb. rewrite forallb_forall. intros Hall n c (o & Hn & Hc).
  apply list_elem_of_lookup_2, list_elem_of_In, Hall in Hn.
  rewrite forallb_forall in Hn. apply list_elem_of_In, Hn in Hc.
  by apply Nat.ltb_lt.
Qed.

Lemma increasing_edge (h : heap) n c : increasing h = true → edge h n c → n < c.
Proof.
  unfold increasing. rewrite forallb_forall. intros Hall (o & Hn & Hc).
  assert (In (n, o) (imap pair h)) as Hin.
  { apply list_elem_of_In, list_elem_of_lookup. exists n.
    rewrite list_lookup_imap, Hn. done. }
  apply Hall in Hin. rewrite forallb_forall in Hin.
  apply list_elem_of_In, Hin in Hc. by apply Nat.ltb_lt.
Qed.

Lemma increasing_acyclic (h : heap) : increasing h = true → acyclic h.
Proof.
  intros Hinc n Hcyc.
  assert (∀ a b, tc (edge h) a b → a < b) as Hlt.
  { induction 1 as [a b Hab|a b c Hab _ IH].
    - by eapply increasing_edge.
    - apply (increasing_edge _ _ _ Hinc) in Hab. lia. }
  apply Hlt in Hcyc. lia.
Qed.

(** A duplicate-free list of references below [N] has at most [N]
    elements. *)
Lemma NoDup_bounded_length (l : list loc) N :
  NoDup l → (∀ x, x ∈ l → x < N) → length l ≤ N.
Proof.
  intros Hnd Hlt. rewrite <- (length_seq N 0).
  apply submseteq_length, NoDup_submseteq; [done|].
  intros x Hx. apply elem_of_seq. specialize (Hlt x Hx). lia.
Qed.

(** Termination on a dag.  [path] is the stack of calls in progress: its
    objects are distinct, so the stack is never deeper than the store. *)
Lemma isObserved_rec_stack (h : heap) :
  closed h → acyclic h →
  ∀ fuel path n,
    NoDup path →
    (∀ m, m ∈ path → m < length h ∧ tc (edge h) m n) →
    n < length h →
    length h ≤ length path + fuel →
    ∃ b, isObserved_rec fuel h n = Done b.
Proof.
  intros Hcl Hac. induction fuel as [|fuel IH]; intros path n Hnd Hpath Hn Hlen.
  - assert (NoDup (n :: path)) as Hnd'.
    { constructor; [|done]. intros Hin. apply Hpath in Hin as [_ Hin].
      by apply (Hac n). }
    apply NoDup_bounded_length with (N := length h) in Hnd'.
    + simpl in Hnd'. lia.
    + intros x [->|Hx]%elem_of_cons; [done | by apply Hpath].
  - destruct (lookup_lt_is_Some_2 h n Hn) as [o Ho].
    rewrite (isObserved_rec_S _ _ _ _ Ho).
    destruct (directly_observed o); [by eexists|].
    apply some_total. intros c Hc.
    assert (edge h n c) as Hedge by (by exists o).
    apply (IH (n :: path)).
    + constructor; [|done]. intros Hin. apply Hpath in Hin as [_ Hin].
      by apply (Hac n).
    + intros m [->|Hm]%elem_of_cons.
      * split; [done | by apply tc_once].
      * destruct (Hpath m Hm) as [? Htc]. split; [done|].
        eapply tc_r; eauto.
    + by eapply Hcl.
    + simpl. lia.
Qed.

Lemma isObserved_rec_terminates (h : heap) n :
  closed h → acyclic h → n < length h →
  ∃ b, isObserved_rec (length h) h n = Done b.
Proof.
  intros Hcl Hac Hn. apply (isObserved_rec_stack h Hcl Hac _ []); auto.
  - constructor.
  - intros m Hm%elem_of_nil. contradiction.
Qed.

(** In a closed store the walk never calls a method on nothing. *)
Lemma isObserved_rec_no_fault (h : heap) :
  closed h → ∀ fuel n, n < length h → isObserved_rec fuel h n ≠ Fault.
Proof.
  intros Hcl. induction fuel as [|fuel IH]; intros n Hn; [done|].
  destruct (lookup_lt_is_Some_2 h n Hn) as [o Ho].
  rewrite (isObserved_rec_S _ _ _ _ Ho).
  destruct (directly_observed o); [done|].
  intros (c & Hc & Hf)%some_fault. apply (IH c); [|done].
  apply (Hcl n). by exists o.
Qed.

(** Without an observer anywhere downstream no call answers [true]. *)
Lemma isObserved_rec_never_true (h : heap) n :
  (∀ m o, rtc (edge h) n m → h !! m = Some o → directly_observed o = false) →
  ∀ fuel, isObserved_rec fuel h n ≠ Done true.
Proof.
  intros Hno fuel. revert n Hno.
  induction fuel as [|fuel IH]; intros n Hno; [done|].
  destruct (h !! n) as [o|] eqn:Ho; [|simpl; by rewrite Ho].
  rewrite (isObserved_rec_S _ _ _ _ Ho).
  rewrite (Hno n o (rtc_refl _ _) Ho).
  intros (c & Hc & Ht)%some_true. apply (IH c); [|done].
  intros m o' Hcm. apply Hno.
  eapply rtc_l; [|done]. by exists o.
Qed.

(** An answer [false] was computed from an answer [false] of every
    consumer, with less fuel. *)
Lemma isObserved_rec_false_edge (h : heap) fuel n c :
  isObserved_rec fuel h n = Done false → edge h n c →
  ∃ fuel', fuel' < fuel ∧ isObserved_rec fuel' h c = Done false.
Proof.
  intros Hrun (o & Ho & Hc). destruct fuel as [|fuel]; [done|].
  rewrite (isObserved_rec_S _ _ _ _ Ho) in Hrun.
  destruct (directly_observed o); [done|].
  rewrite some_false in Hrun. exists fuel. split; [lia | auto].
Qed.

Lemma isObserved_rec_false_tc (h : heap) n c :
  tc (edge h) n c →
  ∀ fuel, isObserved_rec fuel h n = Done false →
  ∃ fuel', fuel' < fuel ∧ isObserved_rec fuel' h c = Done false.
Proof.
  induction 1 as [a b Hab|a b c Hab _ IH]; intros fuel Hrun.
  - by eapply isObserved_rec_false_edge.
  - destruct (isObserved_rec_false_edge _ _ _ _ Hrun Hab) as (f1 & Hf1 & Hr1).
    destruct (IH _ Hr1) as (f2 & Hf2 & Hr2). exists f2. split; [lia | done].
Qed.

Lemma isObserved_rec_cycle_never_false (h : heap) n :
  tc (edge h) n n → ∀ fuel, isObserved_rec fuel h n ≠ Done false.
Proof.
  intros Hcyc fuel. induction (lt_wf fuel) as [fuel _ IH]. intros Hrun.
  destruct (isObserved_rec_false_tc _ _ _ Hcyc _ Hrun) as (fuel' & Hlt & Hrun').
  by apply (IH fuel').
Qed.

(** ** Registration *)

Lemma add_to_idem {A : Type} `{EqDecision A} (x : A) (l : list A) :
  add_to x (add_to x l) = add_to x l.
Proof.
  unfold add_to, push. destruct (includes l x) eqn:Hi.
  - by rewrite Hi.
  - assert (includes (l ++ [x]) x = true) as ->; [|done].
    apply includes_true, elem_of_app. right. left.
Qed.

Lemma bind_ret_unit (m : M unit) (h : heap) : (m;; mret tt) h = m h.
Proof.
  unfold mbind, M_bind, mret, M_ret. by destruct (m h) as [[[] h']| |].
Qed.

Lemma forEach_cons {A : Type} (x : A) l (f : A → M unit) (h : heap) :
  forEach (x :: l) f h
  = match f x h with
    | Done (_, h') => forEach l f h'
    | Fuel => Fuel
    | Fault => Fault
    end.
Proof. done. Qed.

Lemma detache_run n (h : heap) o :
  h !! n = Some o →
  detache n h
  = match released (okind o) with
    | Some ps => forEach ps (λ p, removeConsumer p n) h
    | None => Fault
    end.
Proof.
  intros Hn. unfold detache, mbind at 1, M_bind at 1, deref. rewrite Hn.
  destruct (okind o); simpl; try done;
    by rewrite ?(bind_ret_unit (removeConsumer _ _)).
Qed.

Lemma detache_fault n (h : heap) : h !! n = None → detache n h = Fault.
Proof. intros Hn. unfold detache, mbind, M_bind, deref. by rewrite Hn. Qed.

Lemma shrinks_refl (h : heap) : shrinks h h.
Proof. split; [done|]. intros p o Hp. exists o. by repeat split. Qed.

Lemma shrinks_trans (h1 h2 h3 : heap) : shrinks h1 h2 → shrinks h2 h3 → shrinks h1 h3.
Proof.
  intros [Hl1 H1] [Hl2 H2]. split; [congruence|]. intros p o Hp.
  destruct (H1 p o Hp) as (o1 & Hp1 & Hk1 & Ho1 & Hs1).
  destruct (H2 p o1 Hp1) as (o2 & Hp2 & Hk2 & Ho2 & Hs2).
  exists o2. repeat split; [done | congruence | congruence |].
  by etrans.
Qed.

Lemma shrinks_remove (h : heap) p c :
  shrinks h (alter (on_consumers (λ cs, remove_first cs c)) p h).
Proof.
  split; [apply length_alter|]. intros q o Hq. rewrite list_lookup_alter.
  destruct (decide (p = q)) as [->|Hne].
  - rewrite Hq. eexists. split; [done|]. repeat split.
    apply remove_first_sublist.
  - exists o. by repeat split.
Qed.

Lemma shrinks_unique (h h1 : heap) :
  shrinks h h1 → unique_consumers h → unique_consumers h1.
Proof.
  intros [Hlen Hsh] Hu p o1 Hp1.
  assert (is_Some (h !! p)) as [o Hp].
  { apply lookup_lt_is_Some. rewrite <- Hlen. by eapply lookup_lt_Some. }
  destruct (Hsh p o Hp) as (o1' & Hp1' & _ & _ & Hsub).
  replace o1' with o1 in Hsub by congruence.
  eapply sublist_NoDup; [by eapply Hu | done].
Qed.

(** Removing a consumer that is in none of the arrays changes nothing. *)
Lemma forEach_remove_absent c ps (h : heap) :
  (∀ p, p ∈ ps → ∃ o, h !! p = Some o ∧ c ∉ consumers o) →
  forEach ps (λ p, removeConsumer p c) h = Done (tt, h).
Proof.
  induction ps as [|p ps IH]; intros Hall; [done|].
  destruct (Hall p (list_elem_of_here _ _)) as (o & Hp & Hc).
  rewrite forEach_cons, removeConsumer_run by eauto.
  rewrite (alter_lookup_id _ _ _ o Hp).
  - apply IH. intros q Hq. apply Hall. by right.
  - unfold on_consumers. rewrite remove_first_notin by done. by destruct o.
Qed.

(** After the loop of [detache()], the consumer is in none of the arrays
    it went through. *)
Lemma forEach_remove_post c ps (h h1 : heap) :
  unique_consumers h →
  forEach ps (λ p, removeConsumer p c) h = Done (tt, h1) →
  shrinks h h1 ∧
  ∀ p, p ∈ ps → ∃ o1, h1 !! p = Some o1 ∧ c ∉ consumers o1.
Proof.
  revert h. induction ps as [|p ps IH]; intros h Hu Hrun.
  - injection Hrun as <-. split; [apply shrinks_refl|].
    intros p Hp%elem_of_nil. contradiction.
  - rewrite forEach_cons in Hrun.
    destruct (h !! p) as [o|] eqn:Hp;
      [|by rewrite removeConsumer_fault in Hrun].
    rewrite removeConsumer_run in Hrun by eauto.
    pose proof (shrinks_remove h p c) as Hsh.
    set (h' := alter _ p h) in *.
    destruct (IH h' (shrinks_unique _ _ Hsh Hu) Hrun) as [Hsh1 Hpost].
    split; [by eapply shrinks_trans|].
    intros q [->|Hq]%elem_of_cons; [|by apply Hpost].
    assert (h' !! p = Some (on_consumers (λ cs, remove_first cs c) o)) as Hp'.
    { unfold h'. by rewrite list_lookup_alter_eq, Hp. }
    destruct (proj2 Hsh1 _ _ Hp') as (o1 & Hp1 & _ & _ & Hsub).
    exists o1. split; [done|]. intros Hin.
    eapply elem_of_sublist in Hin; [|done]. simpl in Hin.
    eapply remove_first_NoDup; [|done]. by eapply Hu.
Qed.

Lemma unique_consumersb_unique (h : heap) :
  unique_consumersb h = true → unique_consumers h.
Proof.
  unfold unique_consumersb. rewrite forallb_forall. intros Hall p o Hp.
  apply list_elem_of_lookup_2, list_elem_of_In, Hall in Hp.
  by apply bool_decide_eq_true in Hp.
Qed.

(** ** Constructors and loops in closed form *)

Lemma forEach_fmap {A B : Type} (g : A → B) (l : list A) (f : B → M unit) (h : heap) :
  forEach (g <$> l) f h = forEach l (λ x, f (g x)) h.
Proof.
  revert h. induction l as [|x l IH]; intros h; [done|].
  rewrite fmap_cons, !forEach_cons. by destruct (f (g x) h) as [[[] h']| |].
Qed.

Lemma new_construct k (h : heap) : new k h = construct k h.
Proof.
  unfold construct.
  destruct k; simpl;
    unfold new_GraphSource, new_GraphSelector, new_ConstructQuery,
      new_DatasetSource, new_DatasetBuilder, new_DatasetMerge,
      new_SparqlEndpoint, new_DefaultSparqlEndpoint, new_RDFTermSource,
      new_RDFTerm, new_VarFromSelectQuery, new_AllTermsFromDatasetSource,
      new_TabularSource, new_SelectQuerySource, new_DefaultVarAllTerms;
    unfold mbind, M_bind, mret, M_ret, alloc; simpl; try done;
    destruct (addConsumer _ _ _) as [[[] h']| |]; try done.
  by rewrite forEach_fmap.
Qed.

Lemma length_sweep F ps (h : heap) : length (sweep F ps h) = length h.
Proof.
  unfold sweep. revert h. induction ps as [|p ps IH]; intros h; [done|].
  simpl. by rewrite IH, length_alter.
Qed.

Lemma lookup_sweep F ps (h : heap) q :
  sweep F ps h !! q
  = on_consumers (Nat.iter (count_occ Nat.eq_dec ps q) F) <$> h !! q.
Proof.
  unfold sweep. revert h. induction ps as [|p ps IH]; intros h.
  - simpl. by destruct (h !! q) as [[]|].
  - cbn [foldl count_occ]. rewrite IH, list_lookup_alter.
    destruct (Nat.eq_dec p q) as [->|Hne].
    + rewrite decide_True by done.
      destruct (h !! q) as [o|]; [|done]. simpl. unfold on_consumers. simpl.
      by rewrite Nat.iter_swap.
    + by rewrite decide_False.
Qed.

Lemma sweep_fields F ps (h : heap) q o1 :
  sweep F ps h !! q = Some o1 →
  ∃ o, h !! q = Some o ∧ okind o1 = okind o ∧ observers o1 = observers o ∧
       consumers o1 = Nat.iter (count_occ Nat.eq_dec ps q) F (consumers o).
Proof.
  rewrite lookup_sweep. destruct (h !! q) as [o|]; [|done].
  intros [= <-]. by exists o.
Qed.

Lemma iter_idem {A : Type} (F : A → A) n x :
  F (F x) = F x → Nat.iter (S n) F x = F x.
Proof. intros HF. induction n as [|n IH]; [done|]. simpl in *. by rewrite IH. Qed.

Lemma allocated_Forall ps (h : heap) :
  allocated ps h = true ↔ ∀ p, p ∈ ps → p < length h.
Proof.
  unfold allocated. rewrite forallb_forall. split.
  - intros Hall p Hp%list_elem_of_In. by apply Nat.ltb_lt, Hall.
  - intros Hall p Hp%list_elem_of_In. by apply Nat.ltb_lt, Hall.
Qed.

Lemma forEach_alter_run (f : loc → M unit) F ps (h : heap) :
  (∀ p (h' : heap), is_Some (h' !! p) →
     f p h' = Done (tt, alter (on_consumers F) p h')) →
  (∀ p (h' : heap), h' !! p = None → f p h' = Fault) →
  forEach ps f h = if allocated ps h then Done (tt, sweep F ps h) else Fault.
Proof.
  intros Hrun Hfault. revert h.
  induction ps as [|p ps IH]; intros h; [done|].
  rewrite forEach_cons. unfold allocated. cbn [forallb].
  destruct (p <? length h) eqn:Hp.
  - apply Nat.ltb_lt, lookup_lt_is_Some in Hp. rewrite Hrun by done.
    rewrite IH. unfold allocated. by rewrite length_alter.
  - apply Nat.ltb_ge, lookup_ge_None in Hp. by rewrite Hfault.
Qed.

Lemma forEach_addConsumer_run c ps (h : heap) :
  forEach ps (λ p, addConsumer p c) h
  = if allocated ps h then Done (tt, register c ps h) else Fault.
Proof.
  apply forEach_alter_run.
  - intros p h'. apply addConsumer_run.
  - intros p h'. apply addConsumer_fault.
Qed.

Lemma forEach_removeConsumer_run c ps (h : heap) :
  forEach ps (λ p, removeConsumer p c) h
  = if allocated ps h then Done (tt, unregister c ps h) else Fault.
Proof.
  apply forEach_alter_run.
  - intros p h'. apply removeConsumer_run.
  - intros p h'. apply removeConsumer_fault.
Qed.

Lemma construct_run k (h : heap) :
  construct k h
  = let h0 := h ++ [mkObject k [] []] in
    if allocated (registered k) h0
    then Done (length h, register (length h) (registered k) h0)
    else Fault.
Proof.
  unfold construct, mbind, M_bind. rewrite alloc_run, forEach_addConsumer_run.
  simpl. by destruct (allocated _ _).
Qed.

Lemma detache_closed_form n (h : heap) :
  detache n h
  = match h !! n with
    | Some o =>
        match released (okind o) with
        | Some ps =>
            if allocated ps h then Done (tt, unregister n ps h) else Fault
        | None => Fault
        end
    | None => Fault
    end.
Proof.
  destruct (h !! n) as [o|] eqn:Hn; [|by apply detache_fault].
  rewrite (detache_run _ _ _ Hn). destruct (released (okind o)); [|done].
  apply forEach_removeConsumer_run.
Qed.

(** ** What client calls keep *)

Lemma kinds_kept_trans (h1 h2 h3 : heap) :
  kinds_kept h1 h2 → kinds_kept h2 h3 → kinds_kept h1 h3.
Proof.
  intros H12 H23 n o Hn. destruct (H12 n o Hn) as (o2 & Hn2 & Hk2).
  destruct (H23 n o2 Hn2) as (o3 & Hn3 & Hk3). exists o3. split; congruence.
Qed.

Lemma sweep_kinds_kept F ps (h : heap) : kinds_kept h (sweep F ps h).
Proof.
  intros n o Hn. rewrite lookup_sweep, Hn. eexists. split; [done|]. done.
Qed.

Lemma alter_observers_kinds_kept F n (h : heap) :
  kinds_kept h (alter (on_observers F) n h).
Proof.
  intros q o Hq. rewrite list_lookup_alter. case_decide; subst.
  - rewrite Hq. eexists. split; [done|]. done.
  - by exists o.
Qed.

Lemma new_run k (h : heap) n h1 :
  new k h = Done (n, h1) →
  n = length h ∧
  h1 = register (length h) (registered k) (h ++ [mkObject k [] []]).
Proof.
  rewrite new_construct, construct_run. simpl.
  destruct (allocated _ _); [|done]. by intros [= <- <-].
Qed.

Lemma new_lookup k (h : heap) n h1 :
  new k h = Done (n, h1) →
  ∃ o, h1 !! n = Some o ∧ okind o = k ∧ observers o = [].
Proof.
  intros [-> ->]%new_run. unfold register.
  rewrite lookup_sweep, lookup_alloc. eexists. split; [done|]. done.
Qed.

Lemma holds_run ps (h : heap) :
  holds ps h = if allocated ps h then Done (tt, h) else Fault.
Proof. done. Qed.

(** What a call that returned did to the store. *)
Lemma exec_inv c (h h1 : heap) :
  exec c h = Done (tt, h1) →
  match c with
  | New k =>
      allocated (arguments k) h = true ∧
      h1 = register (length h) (registered k) (h ++ [mkObject k [] []])
  | AddConsumer p c => h1 = sweep (add_to c) [p] h ∧ c < length h
  | RemoveConsumer p c => h1 = sweep (λ cs, remove_first cs c) [p] h
  | AddObserver n v => h1 = alter (on_observers (add_to (VRef n))) n h
  | RemoveObserver n v => h1 = alter (on_observers (λ os, remove_first os v)) n h
  | Detache n =>
      ∃ o ps, h !! n = Some o ∧ released (okind o) = Some ps ∧
              h1 = unregister n ps h
  end.
Proof.
  destruct c as [k|p c|p c|n v|n v|n]; simpl.
  - unfold mbind, M_bind. rewrite holds_run.
    destruct (allocated (arguments k) h); [|done].
    destruct (new k h) as [[n h']| |] eqn:Hnew; [|done..].
    intros [= <-]. by apply new_run in Hnew as [_ ->].
  - unfold mbind, M_bind. rewrite holds_run.
    destruct (allocated [c] h) eqn:Hc; [|done].
    rewrite allocated_Forall in Hc. specialize (Hc c (list_elem_of_here _ _)).
    destruct (h !! p) eqn:Hp; [|by rewrite addConsumer_fault].
    rewrite addConsumer_run by eauto. by intros [= <-].
  - unfold mbind, M_bind. rewrite holds_run.
    destruct (allocated [c] h) eqn:Hc; [|done].
    destruct (h !! p) eqn:Hp; [|by rewrite removeConsumer_fault].
    rewrite removeConsumer_run by eauto. by intros [= <-].
  - destruct (h !! n) as [o|] eqn:Hn.
    + destruct (has_observers (family_of (okind o))) eqn:Hf.
      * rewrite (addObserver_run _ _ _ _ Hn Hf). by intros [= <-].
      * by rewrite (proj1 (observer_methods_absent _ v _ _ Hn Hf)).
    + unfold addObserver, observers_of, mbind, M_bind, deref. by rewrite Hn.
  - destruct (h !! n) as [o|] eqn:Hn.
    + destruct (has_observers (family_of (okind o))) eqn:Hf.
      * rewrite (removeObserver_run _ _ _ _ Hn Hf). by intros [= <-].
      * by rewrite (proj1 (proj2 (observer_methods_absent _ v _ _ Hn Hf))).
    + unfold removeObserver, observers_of, mbind, M_bind, deref. by rewrite Hn.
  - rewrite detache_closed_form. destruct (h !! n) as [o|] eqn:Hn; [|done].
    destruct (released (okind o)) as [ps|] eqn:Hps; [|done].
    destruct (allocated ps h); [|done]. intros [= <-]. by exists o, ps.
Qed.

Lemma exec_kinds_kept c (h h1 : heap) : exec c h = Done (tt, h1) → kinds_kept h h1.
Proof.
  intros Hrun%exec_inv. destruct c as [k|p c|p c|n v|n v|n].
  - destruct Hrun as [_ ->]. intros q o Hq.
    apply (sweep_kinds_kept _ _ _ q o). by apply lookup_app_l_Some.
  - destruct Hrun as [-> _]. apply sweep_kinds_kept.
  - subst h1. apply sweep_kinds_kept.
  - subst h1. apply alter_observers_kinds_kept.
  - subst h1. apply alter_observers_kinds_kept.
  - destruct Hrun as (o & ps & _ & _ & ->). apply sweep_kinds_kept.
Qed.

Lemma run_cons c cs (h : heap) :
  run (c :: cs) h
  = match exec c h with
    | Done (_, h') => run cs h'
    | Fuel => Fuel
    | Fault => Fault
    end.
Proof. done. Qed.

(** A property of stores that every call keeps holds after any sequence of
    calls. *)
Lemma run_ind (P : heap → heap → Prop) :
  (∀ h, P h h) →
  (∀ c h1 h2 h3, exec c h1 = Done (tt, h2) → P h2 h3 → P h1 h3) →
  ∀ cs h h1, run cs h = Done (tt, h1) → P h h1.
Proof.
  intros Hrefl Hstep. induction cs as [|c cs IH]; intros h h1 Hrun.
  - injection Hrun as <-. apply Hrefl.
  - rewrite run_cons in Hrun.
    destruct (exec c h) as [[[] h2]| |] eqn:Hc; [|done..].
    eapply Hstep; eauto.
Qed.

Lemma run_kinds_kept cs (h h1 : heap) : run cs h = Done (tt, h1) → kinds_kept h h1.
Proof.
  apply (run_ind kinds_kept).
  - intros h' n o Hn. by exists o.
  - intros c h1' h2 h3 Hc H23. eapply kinds_kept_trans; [|done].
    by eapply exec_kinds_kept.
Qed.

Lemma getDatasetSource_run n (h : heap) o :
  h !! n = Some o → family_of (okind o) = Tabular →
  getDatasetSource n h = Done (dataset_of (okind o), h).
Proof.
  intros Hn Hf. unfold getDatasetSource, mbind, M_bind, deref. rewrite Hn.
  by destruct (okind o).
Qed.

(** ** The observer arrays *)

Lemma self_observed_nil : self_observed [].
Proof. intros n o Hn. by rewrite lookup_nil in Hn. Qed.

Lemma sweep_self_observed F ps (h : heap) :
  self_observed h → self_observed (sweep F ps h).
Proof.
  intros Hinv n o1 (o & Hn & _ & Hobs & _)%sweep_fields.
  rewrite Hobs. by apply Hinv.
Qed.

Lemma alloc_self_observed k (h : heap) :
  self_observed h → self_observed (h ++ [mkObject k [] []]).
Proof.
  intros Hinv n o [[_ Hn]|[_ <-]]%lookup_snoc_Some; [by apply (Hinv n) | by left].
Qed.

Lemma addObserver_self_observed n (h : heap) :
  self_observed h → self_observed (alter (on_observers (add_to (VRef n))) n h).
Proof.
  intros Hinv q o1. rewrite list_lookup_alter. case_decide; [subst q|by apply Hinv].
  destruct (h !! n) as [o|] eqn:Hn; [|done]. intros [= <-]. right. simpl.
  destruct (Hinv n o Hn) as [->| ->]; [done|].
  unfold add_to. simpl. by rewrite decide_True.
Qed.

Lemma removeObserver_self_observed n v (h : heap) :
  self_observed h →
  self_observed (alter (on_observers (λ os, remove_first os v)) n h).
Proof.
  intros Hinv q o1. rewrite list_lookup_alter. case_decide; [subst q|by apply Hinv].
  destruct (h !! n) as [o|] eqn:Hn; [|done]. intros [= <-]. simpl.
  destruct (Hinv n o Hn) as [->| ->]; [by left|].
  simpl. case_decide; [by left | by right].
Qed.

Lemma exec_self_observed c (h h1 : heap) :
  exec c h = Done (tt, h1) → self_observed h → self_observed h1.
Proof.
  intros Hrun%exec_inv Hinv. destruct c as [k|p c|p c|n v|n v|n].
  - destruct Hrun as [_ ->]. by apply sweep_self_observed, alloc_self_observed.
  - destruct Hrun as [-> _]. by apply sweep_self_observed.
  - subst h1. by apply sweep_self_observed.
  - subst h1. by apply addObserver_self_observed.
  - subst h1. by apply removeObserver_self_observed.
  - destruct Hrun as (o & ps & _ & _ & ->). by apply sweep_self_observed.
Qed.

(** ** Stores a client can build *)

Lemma add_to_elem {A : Type} `{EqDecision A} (c : A) (l : list A) x :
  x ∈ add_to c l → x ∈ l ∨ x = c.
Proof.
  unfold add_to, push. destruct (includes l c); [by left|].
  intros [?|Hx]%elem_of_app; [by left|].
  right. by apply list_elem_of_singleton in Hx.
Qed.

Lemma add_to_NoDup {A : Type} `{EqDecision A} (c : A) (l : list A) :
  NoDup l → NoDup (add_to c l).
Proof.
  unfold add_to, push. destruct (includes l c) eqn:Hc; [done|].
  intros Hnd. apply NoDup_app. split; [done|]. split.
  - intros x Hx ->%list_elem_of_singleton. by apply includes_false in Hc.
  - apply NoDup_singleton.
Qed.

Lemma iter_elem (F : list loc → list loc) (P : loc → Prop) :
  (∀ l x, x ∈ F l → x ∈ l ∨ P x) →
  ∀ n l x, x ∈ Nat.iter n F l → x ∈ l ∨ (0 < n ∧ P x).
Proof.
  intros HF. induction n as [|n IH]; intros l x; simpl; [by left|].
  intros [Hx|HP]%HF; [|right; split; [lia | done]].
  destruct (IH l x Hx) as [?|[_ HP]]; [by left|]. right. split; [lia | done].
Qed.

Lemma iter_NoDup (F : list loc → list loc) :
  (∀ l, NoDup l → NoDup (F l)) → ∀ n l, NoDup l → NoDup (Nat.iter n F l).
Proof. intros HF. induction n as [|n IH]; intros l Hl; simpl; auto. Qed.

(** The edges of a swept store: the old ones, and those [F] adds at the
    producers that were swept. *)
Lemma sweep_edge (F : list loc → list loc) (P : loc → Prop) ps (h : heap) q x :
  (∀ l x, x ∈ F l → x ∈ l ∨ P x) →
  edge (sweep F ps h) q x → edge h q x ∨ (q ∈ ps ∧ P x).
Proof.
  intros HF (o1 & (o & Hq & _ & _ & Hcs)%sweep_fields & Hx).
  rewrite Hcs in Hx. apply (iter_elem F P HF) in Hx as [Hx|[Hn HP]].
  - left. by exists o.
  - right. split; [|done]. apply list_elem_of_In.
    by apply (count_occ_In Nat.eq_dec).
Qed.

Lemma register_edge c ps (h : heap) q x :
  edge (register c ps h) q x → edge h q x ∨ (q ∈ ps ∧ x = c).
Proof. apply (sweep_edge _ (λ y, y = c)). intros l y. apply add_to_elem. Qed.

Lemma unregister_edge c ps (h : heap) q x :
  edge (unregister c ps h) q x → edge h q x.
Proof.
  intros [?|[_ []]]%(sweep_edge _ (λ _, False)); [done|].
  intros l y Hy. left. eapply elem_of_sublist; [done|].
  apply remove_first_sublist.
Qed.

Lemma sweep_unique (F : list loc → list loc) ps (h : heap) :
  (∀ l, NoDup l → NoDup (F l)) →
  unique_consumers h → unique_consumers (sweep F ps h).
Proof.
  intros HF Hu q o1 (o & Hq & _ & _ & ->)%sweep_fields.
  apply iter_NoDup; [done|]. by eapply Hu.
Qed.

Lemma alloc_edge k (h : heap) n c :
  edge (h ++ [mkObject k [] []]) n c → edge h n c.
Proof.
  intros (o & [[_ Hn]|[_ <-]]%lookup_snoc_Some & Hc).
  - by exists o.
  - simpl in Hc. by apply elem_of_nil in Hc.
Qed.

Lemma alloc_unique k (h : heap) :
  unique_consumers h → unique_consumers (h ++ [mkObject k [] []]).
Proof.
  intros Hu n o [[_ Hn]|[_ <-]]%lookup_snoc_Some; [by eapply Hu|].
  apply NoDup_nil_2.
Qed.

Lemma alter_observers_edge F n (h : heap) q c :
  edge (alter (on_observers F) n h) q c → edge h q c.
Proof.
  intros (o1 & Hq & Hc). rewrite list_lookup_alter in Hq.
  case_decide; [subst q|by exists o1].
  destruct (h !! n) as [o|] eqn:Hn; [|done]. injection Hq as <-. by exists o.
Qed.

Lemma alter_observers_unique F n (h : heap) :
  unique_consumers h → unique_consumers (alter (on_observers F) n h).
Proof.
  intros Hu q o1 Hq. rewrite list_lookup_alter in Hq.
  case_decide; [subst q|by eapply Hu].
  destruct (h !! n) as [o|] eqn:Hn; [|done]. injection Hq as <-.
  simpl. by eapply Hu.
Qed.

Lemma registered_arguments k p : p ∈ registered k → p ∈ arguments k.
Proof.
  destruct k; simpl; try done.
  - rewrite !elem_of_cons, !elem_of_app. tauto.
  - rewrite !elem_of_cons, !elem_of_app. tauto.
Qed.

(** The edges after a call: those before it, and for each kind of call the
    edges it can add. *)
Lemma exec_edge c (h h1 : heap) q x :
  exec c h = Done (tt, h1) → edge h1 q x →
  edge h q x ∨
  match c with
  | New k => q < length h ∧ x = length h
  | AddConsumer p c => q = p ∧ x = c ∧ c < length h
  | _ => False
  end.
Proof.
  intros Hrun%exec_inv Hedge. destruct c as [k|p c|p c|n v|n v|n].
  - destruct Hrun as [Hargs ->].
    apply register_edge in Hedge as [Hedge|[Hq ->]].
    + left. by eapply alloc_edge.
    + right. split; [|done].
      by apply (proj1 (allocated_Forall _ _) Hargs), registered_arguments.
  - destruct Hrun as [-> Hc].
    apply (register_edge c [p]) in Hedge as [Hedge|[Hq ->]]; [by left|].
    right. by apply list_elem_of_singleton in Hq.
  - subst h1. left. by eapply (unregister_edge c [p]).
  - subst h1. left. by eapply alter_observers_edge.
  - subst h1. left. by eapply alter_observers_edge.
  - destruct Hrun as (o & ps & _ & _ & ->). left. by eapply unregister_edge.
Qed.

Lemma exec_length c (h h1 : heap) :
  exec c h = Done (tt, h1) → length h ≤ length h1.
Proof.
  intros Hrun%exec_inv. destruct c as [k|p c|p c|n v|n v|n].
  - destruct Hrun as [_ ->]. unfold register.
    rewrite length_sweep, length_app. lia.
  - destruct Hrun as [-> _]. by rewrite length_sweep.
  - subst h1. by rewrite length_sweep.
  - subst h1. by rewrite length_alter.
  - subst h1. by rewrite length_alter.
  - destruct Hrun as (o & ps & _ & _ & ->). unfold unregister.
    by rewrite length_sweep.
Qed.

Lemma exec_closed c (h h1 : heap) :
  exec c h = Done (tt, h1) → closed h → closed h1.
Proof.
  intros Hrun Hcl q x Hedge. pose proof (exec_length _ _ _ Hrun) as Hlen.
  destruct (exec_edge _ _ _ _ _ Hrun Hedge) as [Hold|Hnew].
  - apply Hcl in Hold. lia.
  - destruct c as [k|p c|p c|n v|n v|n]; try done.
    + destruct Hnew as [_ ->]. apply exec_inv in Hrun as [_ ->].
      unfold register. rewrite length_sweep, length_app. simpl. lia.
    + destruct Hnew as (_ & -> & Hc). lia.
Qed.


Lemma exec_unique c (h h1 : heap) :
  exec c h = Done (tt, h1) → unique_consumers h → unique_consumers h1.
Proof.
  intros Hrun%exec_inv Hu. destruct c as [k|p c|p c|n v|n v|n].
  - destruct Hrun as [_ ->].
    apply sweep_unique; [apply add_to_NoDup | by apply alloc_unique].
  - destruct Hrun as [-> _]. apply sweep_unique; [apply add_to_NoDup | done].
  - subst h1. apply sweep_unique; [|done].
    intros l Hl. eapply sublist_NoDup; [done | apply remove_first_sublist].
  - subst h1. by apply alter_observers_unique.
  - subst h1. by apply alter_observers_unique.
  - destruct Hrun as (o & ps & _ & _ & ->). apply sweep_unique; [|done].
    intros l Hl. eapply sublist_NoDup; [done | apply remove_first_sublist].
Qed.

Lemma well_formed_nil : well_formed [].
Proof.
  split; [|split].
  - intros p o Hp. by rewrite lookup_nil in Hp.
  - intros n c (o & Hn & _). by rewrite lookup_nil in Hn.
  - apply self_observed_nil.
Qed.





(** ** Registration symmetry, where the code has it *)

Lemma released_registered k rs p :
  released k = Some rs → p ∈ rs → p ∈ registered k.
Proof.
  destruct k; simpl; intros [= <-]; try done.
  - intros ->%list_elem_of_singleton. left.
  - intros ->%list_elem_of_singleton. left.
Qed.

Lemma count_occ_pos_elem (ps : list loc) p :
  0 < count_occ Nat.eq_dec ps p ↔ p ∈ ps.
Proof. rewrite list_elem_of_In. symmetry. apply count_occ_In. Qed.

Lemma iter_add_to (c : loc) (l : list loc) n :
  c ∉ l → 0 < n → Nat.iter n (add_to c) l = l ++ [c].
Proof.
  intros Hc Hn. destruct n as [|n]; [lia|].
  rewrite iter_idem by apply add_to_idem.
  unfold add_to, push. by rewrite (proj2 (includes_false l c) Hc).
Qed.

Lemma remove_first_snoc (c : loc) (l : list loc) :
  c ∉ l → remove_first (l ++ [c]) c = l.
Proof.
  induction l as [|y l IH]; simpl; intros Hc.
  - by rewrite decide_True.
  - rewrite not_elem_of_cons in Hc. destruct Hc as [Hne Hc].
    rewrite decide_False by done. by rewrite IH.
Qed.

Lemma iter_remove_first_snoc (c : loc) (l : list loc) n :
  c ∉ l → 0 < n → Nat.iter n (λ cs, remove_first cs c) (l ++ [c]) = l.
Proof.
  intros Hc Hn. destruct n as [|n]; [lia|]. clear Hn.
  induction n as [|n IH]; simpl in *.
  - by apply remove_first_snoc.
  - rewrite IH. by apply remove_first_notin.
Qed.

(** The store right after a constructor call with arguments of a closed
    store: the new object is appended to the consumer array of every
    producer the constructor registers with, once. *)
Lemma new_consumers k (h h1 : heap) c :
  closed h → allocated (arguments k) h = true →
  new k h = Done (c, h1) →
  c = length h ∧
  h1 !! c = Some (mkObject k [] []) ∧
  ∀ p o, h !! p = Some o →
    h1 !! p = Some (if bool_decide (p ∈ registered k)
                    then on_consumers (λ l, l ++ [c]) o else o).
Proof.
  intros Hcl Hargs [-> ->]%new_run. rewrite allocated_Forall in Hargs.
  split; [done|]. unfold register. split.
  - rewrite lookup_sweep, lookup_alloc.
    rewrite (proj1 (count_occ_not_In Nat.eq_dec _ _)); [done|].
    intros Hin%list_elem_of_In%registered_arguments%Hargs. lia.
  - intros p o Hp. rewrite lookup_sweep, (lookup_app_l_Some _ _ _ _ Hp). simpl.
    f_equal. case_bool_decide as Hin.
    + unfold on_consumers. f_equal. apply iter_add_to.
      * intros Hc. assert (edge h p (length h)) as He by (by exists o).
        apply Hcl in He. lia.
      * by apply count_occ_pos_elem.
    + rewrite (proj1 (count_occ_not_In Nat.eq_dec _ _)).
      * by destruct o.
      * by rewrite <- list_elem_of_In.
Qed.

(** X1.  For every class, with arguments that are objects of a closed store:
    right after construction each producer the constructor
    registers with lists the new object exactly once; after [detache()] the
    producers [detache()] goes through no longer list it, the others still
    do. *)
Lemma registration_symmetry_where_released k (h h1 : heap) c :
  closed h → allocated (arguments k) h = true →
  new k h = Done (c, h1) →
  (∀ p, p ∈ registered k →
     count_occ Nat.eq_dec (consumers_at h1 p) c = 1) ∧
  (∀ rs h2, released k = Some rs → detache c h1 = Done (tt, h2) →
     (∀ p, p ∈ rs → c ∉ consumers_at h2 p) ∧
     (∀ p, p ∈ registered k → p ∉ rs →
        count_occ Nat.eq_dec (consumers_at h2 p) c = 1)).
Proof.
  intros Hcl Hargs Hnew.
  destruct (new_consumers _ _ _ _ Hcl Hargs Hnew) as (-> & Hc & Hold).
  rewrite allocated_Forall in Hargs.
  assert (∀ p, p ∈ registered k →
    ∃ o, h !! p = Some o ∧ (length h ∉ consumers o) ∧
         h1 !! p = Some (on_consumers (λ l, l ++ [length h]) o)) as Hreg.
  { intros p Hp.
    destruct (lookup_lt_is_Some_2 h p) as [o Ho];
      [by apply Hargs, registered_arguments|].
    exists o. split; [done|]. split.
    - intros Hin. assert (edge h p (length h)) as He by (by exists o).
      apply Hcl in He. lia.
    - rewrite (Hold p o Ho). by rewrite bool_decide_eq_true_2. }
  assert (∀ l, length h ∉ l →
    count_occ Nat.eq_dec (l ++ [length h]) (length h) = 1) as Hcount.
  { intros l Hl. rewrite count_occ_app. simpl.
    rewrite (proj1 (count_occ_not_In Nat.eq_dec _ _)).
    - by destruct (Nat.eq_dec _ _).
    - by rewrite <- list_elem_of_In. }
  split.
  - intros p (o & _ & Hfresh & Hp1)%Hreg. unfold consumers_at. rewrite Hp1.
    simpl. by apply Hcount.
  - intros rs h2 Hrs Hdet. rewrite detache_closed_form, Hc in Hdet.
    simpl in Hdet. rewrite Hrs in Hdet.
    destruct (allocated rs h1); [|done]. injection Hdet as <-.
    unfold unregister, consumers_at. split.
    + intros p Hp.
      destruct (Hreg p (released_registered _ _ _ Hrs Hp))
        as (o & _ & Hfresh & Hp1).
      rewrite lookup_sweep, Hp1. simpl.
      rewrite iter_remove_first_snoc; [done..|]. by apply count_occ_pos_elem.
    + intros p (o & _ & Hfresh & Hp1)%Hreg Hnot.
      rewrite lookup_sweep, Hp1. simpl.
      rewrite (proj1 (count_occ_not_In Nat.eq_dec rs p)).
      * simpl. by apply Hcount.
      * by rewrite <- list_elem_of_In.
Qed.

(** * The statements of the specification *)

(** ** The registration ledger *)

(** C6.  [addConsumer(C)] on a source of any class returns, leaves the
    store as it is when [C] is already in the consumer array and appends
    [C] to the array otherwise; a second call right after the first changes
    nothing. *)
Theorem addConsumer_idempotent :
  ∀ (h : heap) p c o,
    h !! p = Some o →
    ∃ h1,
      addConsumer p c h = Done (tt, h1) ∧
      (addConsumer p c;; addConsumer p c) h = Done (tt, h1) ∧
      (c ∈ consumers o → h1 = h) ∧
      (c ∉ consumers o →
       h1 = <[p := mkObject (okind o) (consumers o ++ [c]) (observers o)]> h).
Proof.
  intros h p c o Hp. eexists. split; [apply addConsumer_run; eauto|].
  split; [|split].
  - unfold mbind, M_bind. rewrite addConsumer_run by eauto.
    rewrite addConsumer_run.
    + rewrite list_alter_alter_eq. do 2 f_equal.
      apply list_alter_ext; [|done]. intros o' _. unfold on_consumers. simpl.
      by rewrite add_to_idem.
    + rewrite list_lookup_alter_eq, Hp. eauto.
  - intros Hin%includes_true. apply (alter_lookup_id _ _ _ o Hp).
    unfold on_consumers, add_to. rewrite Hin. by destruct o.
  - intros Hin%includes_false. rewrite <- (insert_alter_lookup _ _ _ o Hp).
    unfold on_consumers, add_to, push. by rewrite Hin.
Qed.

Lemma addConsumer_idempotent_witness :
  ∃ h1,
    addConsumer 0 1 [mkObject DefaultSparqlEndpoint [] []] = Done (tt, h1) ∧
    (addConsumer 0 1;; addConsumer 0 1) [mkObject DefaultSparqlEndpoint [] []]
      = Done (tt, h1) ∧
    (1 ∈ [] → h1 = [mkObject DefaultSparqlEndpoint [] []]) ∧
    (1 ∉ [] → h1 = [mkObject DefaultSparqlEndpoint [1] []]).
Proof.
  apply (addConsumer_idempotent [mkObject DefaultSparqlEndpoint [] []] 0 1
           (mkObject DefaultSparqlEndpoint [] [])).
  reflexivity.
Defined.

(** C7.  [removeConsumer(C)] on a source whose consumer array does not hold
    [C] returns and leaves the store as it is.  Hence, consumer arrays being
    duplicate-free, a second [detache()] on a derived source returns and
    changes nothing. *)
Theorem removeConsumer_absent_detache_twice :
  (∀ (h : heap) p c o,
     h !! p = Some o → c ∉ consumers o → removeConsumer p c h = Done (tt, h)) ∧
  (∀ (h h1 : heap) n,
     unique_consumers h →
     detache n h = Done (tt, h1) →
     detache n h1 = Done (tt, h1) ∧
     (detache n;; detache n) h = Done (tt, h1)).
Proof.
  split.
  - intros h p c o Hp Hc. rewrite removeConsumer_run by eauto.
    rewrite (alter_lookup_id _ _ _ o Hp); [done|].
    unfold on_consumers. rewrite remove_first_notin by done. by destruct o.
  - intros h h1 n Hu Hrun.
    destruct (h !! n) as [o|] eqn:Hn; [|by rewrite detache_fault in Hrun].
    rewrite (detache_run _ _ _ Hn) in Hrun.
    destruct (released (okind o)) as [ps|] eqn:Hps; [|done].
    destruct (forEach_remove_post _ _ _ _ Hu Hrun) as [[_ Hsh] Hpost].
    destruct (Hsh n o Hn) as (o1 & Hn1 & Hk & _).
    assert (detache n h1 = Done (tt, h1)) as Htwice.
    { rewrite (detache_run _ _ _ Hn1), Hk, Hps. by apply forEach_remove_absent. }
    split; [done|]. unfold mbind, M_bind.
    by rewrite (detache_run _ _ _ Hn), Hps, Hrun.
Qed.

Lemma removeConsumer_absent_detache_twice_witness :
  removeConsumer 0 5 [mkObject DefaultSparqlEndpoint [1] []]
    = Done (tt, [mkObject DefaultSparqlEndpoint [1] []]) ∧
  (detache 1 [mkObject DefaultSparqlEndpoint [] [];
              mkObject (DefaultVarAllTerms 0) [] []]
     = Done (tt, [mkObject DefaultSparqlEndpoint [] [];
                  mkObject (DefaultVarAllTerms 0) [] []]) ∧
   (detache 1;; detache 1)
       [mkObject DefaultSparqlEndpoint [1] [];
        mkObject (DefaultVarAllTerms 0) [] []]
     = Done (tt, [mkObject DefaultSparqlEndpoint [] [];
                  mkObject (DefaultVarAllTerms 0) [] []])).
Proof.
  split.
  - apply (proj1 removeConsumer_absent_detache_twice
             [mkObject DefaultSparqlEndpoint [1] []] 0 5
             (mkObject DefaultSparqlEndpoint [1] [])).
    + reflexivity.
    + apply includes_false. reflexivity.
  - apply (proj2 removeConsumer_absent_detache_twice
             [mkObject DefaultSparqlEndpoint [1] [];
              mkObject (DefaultVarAllTerms 0) [] []]
             [mkObject DefaultSparqlEndpoint [] [];
              mkObject (DefaultVarAllTerms 0) [] []] 1).
    + apply unique_consumersb_unique. reflexivity.
    + reflexivity.
Defined.

(** ** Demand propagation *)

(** C5.  On every source of a store whose consumer edges form a dag
    [isObserved()] returns, and whenever it returns, on any store, its answer
    is the disjunction the code computes: for term and tabular sources,
    [hasObserver()] or some consumer answering [true]; for graph and dataset
    sources, some consumer answering [true].  A source with no consumers and
    no observers answers [false], in particular the object a leaf
    constructor has just made. *)
Theorem isObserved_is_disjunction :
  (∀ (h : heap) n o,
     closed h → acyclic h → h !! n = Some o →
     ∃ b, isObserved (length h) n h = Done (b, h) ∧ answers_disjunction h n o b) ∧
  (∀ (h : heap) n o fuel b,
     h !! n = Some o →
     isObserved fuel n h = Done (b, h) →
     answers_disjunction h n o b) ∧
  (∀ (h : heap) n o fuel,
     h !! n = Some o → consumers o = [] → observers o = [] →
     isObserved (S fuel) n h = Done (false, h)) ∧
  (∀ (h : heap) fuel (t : Term) (url : string),
     (this ← new_RDFTerm t; isObserved (S fuel) this) h
       = Done (false, h ++ [mkObject (RDFTerm t) [] []]) ∧
     (this ← new_SparqlEndpoint url; isObserved (S fuel) this) h
       = Done (false, h ++ [mkObject (SparqlEndpoint url) [] []]) ∧
     (this ← new_DefaultSparqlEndpoint; isObserved (S fuel) this) h
       = Done (false, h ++ [mkObject DefaultSparqlEndpoint [] []])).
Proof.
  assert (∀ (h : heap) n o fuel,
     h !! n = Some o → consumers o = [] → observers o = [] →
     isObserved (S fuel) n h = Done (false, h)) as Hleaf.
  { intros h n o fuel Hn Hc Ho. apply isObserved_run.
    rewrite (isObserved_rec_S _ _ _ _ Hn). unfold directly_observed.
    rewrite Hc, Ho. simpl. by rewrite andb_false_r. }
  assert (∀ (h : heap) n o fuel b,
     h !! n = Some o → isObserved fuel n h = Done (b, h) →
     answers_disjunction h n o b) as Hret.
  { intros h n o fuel b Hn Hrun%isObserved_run.
    pose proof (isObserved_rec_unfold _ _ _ _ _ Hn Hrun) as Hb.
    unfold directly_observed in Hb. unfold answers_disjunction.
    destruct (family_of (okind o)) eqn:Hfam; simpl in Hb.
    - rewrite Hb. split; [intros [?|?]; [done | auto] | auto].
    - rewrite Hb. split; [intros [?|?]; [done | auto] | auto].
    - rewrite (hasObserver_run _ _ _ Hn) by (by rewrite Hfam).
      rewrite Hb. split; (intros [?|?]; [left|right]); congruence.
    - rewrite (hasObserver_run _ _ _ Hn) by (by rewrite Hfam).
      rewrite Hb. split; (intros [?|?]; [left|right]); congruence. }
  split; [|split; [exact Hret|split; [exact Hleaf|]]].
  - intros h n o Hcl Hac Hn.
    destruct (isObserved_rec_terminates h n Hcl Hac (lookup_lt_Some _ _ _ Hn))
      as [b Hb%isObserved_run].
    exists b. split; [done|]. by eapply Hret.
  - intros h fuel t url.
    unfold new_RDFTerm, new_SparqlEndpoint, new_DefaultSparqlEndpoint.
    unfold mbind, M_bind. rewrite !alloc_run.
    repeat split; apply (Hleaf _ _ _ _ (lookup_alloc _ _)); done.
Qed.

Lemma isObserved_is_disjunction_witness :
  (∃ b, isObserved 2 0 observed_table_store = Done (b, observed_table_store) ∧
        answers_disjunction observed_table_store 0
          (mkObject DefaultSparqlEndpoint [1] []) b) ∧
  answers_disjunction observed_table_store 1
    (mkObject (DefaultVarAllTerms 0) [] [VRef 1]) true ∧
  isObserved 1 0 [mkObject (RDFTerm "a") [] []]
    = Done (false, [mkObject (RDFTerm "a") [] []]).
Proof.
  split; [|split].
  - apply (proj1 isObserved_is_disjunction observed_table_store 0
             (mkObject DefaultSparqlEndpoint [1] [])).
    + apply closedb_closed. reflexivity.
    + apply increasing_acyclic. reflexivity.
    + reflexivity.
  - apply (proj1 (proj2 isObserved_is_disjunction) observed_table_store 1
             (mkObject (DefaultVarAllTerms 0) [] [VRef 1]) 1 true); reflexivity.
  - apply (proj1 (proj2 (proj2 isObserved_is_disjunction))
             [mkObject (RDFTerm "a") [] []] 0 (mkObject (RDFTerm "a") [] []) 0);
      reflexivity.
Defined.

(** C9, as stated, fails: a consumer cycle does not by itself keep
    [isObserved()] from returning.  A table with an observer that is its own
    consumer answers [true] at once, because [||] does not evaluate its
    second operand. *)
Lemma isObserved_on_cycle_returns :
  self_consumer true (VTok 0) [] = Done (1, cyclic_store true) ∧
  tc (edge (cyclic_store true)) 1 1 ∧
  isObserved 1 1 (cyclic_store true) = Done (true, cyclic_store true) ∧
  ¬ (∀ fuel, isObserved fuel 1 (cyclic_store true) = Fuel).
Proof.
  split; [reflexivity|]. split; [|split].
  - apply tc_once. eexists. split; [reflexivity | left].
  - reflexivity.
  - intros Hdiv. specialize (Hdiv 1). discriminate.
Qed.

(** The cycle can also keep the call from ever reaching an observer: in
    [observed_cycle_store] the walk from the first table re-enters the
    cycle before it gets to the observed third table. *)
Lemma observed_cycle_store_built :
  run [New (TabularSource "a"); New (TabularSource "b"); New (TabularSource "c");
       AddConsumer 0 1; AddConsumer 1 0; AddConsumer 1 2;
       AddObserver 2 (VTok 0)] []
  = Done (tt, observed_cycle_store).
Proof. reflexivity. Qed.

Lemma isObserved_diverges_before_the_observer :
  observer_downstream observed_cycle_store 0 ∧
  ∀ fuel, isObserved fuel 0 observed_cycle_store = Fuel.
Proof.
  split.
  - exists 2. split; [|reflexivity]. apply (rtc_l _ _ 1).
    + eexists. split; [reflexivity | left].
    + apply rtc_once. eexists. split; [reflexivity | right; left].
  - assert (∀ fuel, isObserved_rec fuel observed_cycle_store 0 = Fuel ∧
                    isObserved_rec fuel observed_cycle_store 1 = Fuel) as Hdiv.
    { induction fuel as [|fuel [IH0 IH1]]; [done|].
      split; simpl; [by rewrite IH1 | by rewrite IH0]. }
    intros fuel. unfold isObserved. by rewrite (proj1 (Hdiv fuel)).
Qed.

(** C9, amended.  In a store whose consumer edges form a dag,
    [isObserved()] returns on every source.  When a source is its own
    consumer, directly or through other sources, [isObserved()] on it never
    answers [false]: the recursion does not return unless it answers
    [true], and it never returns when no source downstream has an
    observer. *)
Theorem isObserved_terminates_on_dag_only :
  ∀ (h : heap) n,
    closed h → n < length h →
    (acyclic h → ∃ b, isObserved (length h) n h = Done (b, h)) ∧
    (tc (edge h) n n →
     (∀ fuel,
        isObserved fuel n h = Fuel ∨ isObserved fuel n h = Done (true, h)) ∧
     ((∀ m o, rtc (edge h) n m → h !! m = Some o →
              directly_observed o = false) →
      ∀ fuel, isObserved fuel n h = Fuel)).
Proof.
  intros h n Hcl Hn. split.
  - intros Hac. destruct (isObserved_rec_terminates h n Hcl Hac Hn) as [b Hb].
    exists b. by apply isObserved_run.
  - intros Hcyc. split.
    + intros fuel. unfold isObserved.
      pose proof (isObserved_rec_cycle_never_false h n Hcyc fuel) as Hf.
      pose proof (isObserved_rec_no_fault h Hcl fuel n Hn) as He.
      destruct (isObserved_rec fuel h n) as [[|]| |]; [by right|done|by left|done].
    + intros Hno fuel. unfold isObserved.
      pose proof (isObserved_rec_never_true h n Hno fuel) as Ht.
      pose proof (isObserved_rec_cycle_never_false h n Hcyc fuel) as Hf.
      pose proof (isObserved_rec_no_fault h Hcl fuel n Hn) as He.
      destruct (isObserved_rec fuel h n) as [[|]| |]; done.
Qed.

Lemma isObserved_terminates_on_dag_only_witness :
  (∃ b, isObserved 2 0 observed_table_store = Done (b, observed_table_store)) ∧
  (∀ fuel,
     isObserved fuel 0 observed_cycle_store = Fuel ∨
     isObserved fuel 0 observed_cycle_store = Done (true, observed_cycle_store)) ∧
  (∀ fuel, isObserved fuel 1 (cyclic_store false) = Fuel).
Proof.
  split; [|split].
  - apply (isObserved_terminates_on_dag_only observed_table_store 0).
    + apply closedb_closed. reflexivity.
    + simpl. lia.
    + apply increasing_acyclic. reflexivity.
  - apply (isObserved_terminates_on_dag_only observed_cycle_store 0).
    + apply closedb_closed. reflexivity.
    + simpl. lia.
    + apply (tc_l _ _ 1); [|apply tc_once];
        eexists; (split; [reflexivity | left]).
  - apply (isObserved_terminates_on_dag_only (cyclic_store false) 1).
    + apply closedb_closed. reflexivity.
    + simpl. lia.
    + apply tc_once. eexists. split; [reflexivity | left].
    + intros m o _ Hm.
      destruct m as [|[|m]]; simpl in Hm; [| |done];
        injection Hm as <-; reflexivity.
Defined.

(** ** Observers *)

(** C10.  [addObserver] and [removeObserver] return on every term and
    tabular source.  Starting from a store in which every observer array is
    empty or holds just its own object (as in the empty store, and right
    after any constructor), any sequence of calls ([addObserver] and
    [removeObserver] with arbitrary tokens among them) leaves every observer
    array with at most one element, which can only be the object itself. *)
Theorem observers_hold_only_self :
  (∀ (h : heap) n o v,
     h !! n = Some o → has_observers (family_of (okind o)) = true →
     ∃ h1 h2, addObserver n v h = Done (tt, h1) ∧
              removeObserver n v h = Done (tt, h2)) ∧
  (∀ (cs : list call) (h h1 : heap),
     self_observed h →
     run cs h = Done (tt, h1) →
     ∀ n o, h1 !! n = Some o →
       length (observers o) ≤ 1 ∧ ∀ v, v ∈ observers o → v = VRef n).
Proof.
  split.
  { intros h n o v Hn Hf. eexists _, _.
    by rewrite (addObserver_run _ _ _ _ Hn Hf), (removeObserver_run _ _ _ _ Hn Hf). }
  intros cs h h1 Hinv Hrun.
  assert (self_observed h1) as Hinv1.
  { revert Hinv. revert cs h h1 Hrun.
    apply (run_ind (λ h h1, self_observed h → self_observed h1)); [done|].
    intros c h1 h2 h3 Hc H23 H1. apply H23. by eapply exec_self_observed. }
  intros n o Hn. destruct (Hinv1 n o Hn) as [->| ->]; simpl.
  - split; [lia|]. intros v Hv%elem_of_nil. contradiction.
  - split; [lia|]. by intros v ->%list_elem_of_singleton.
Qed.

Lemma observers_hold_only_self_witness :
  (∃ h1 h2,
     addObserver 0 (VTok 7) [mkObject (RDFTerm "a") [] []] = Done (tt, h1) ∧
     removeObserver 0 (VTok 7) [mkObject (RDFTerm "a") [] []] = Done (tt, h2)) ∧
  (length [VRef 1] ≤ 1 ∧ ∀ v, v ∈ [VRef 1] → v = VRef 1).
Proof.
  split.
  - apply (proj1 observers_hold_only_self [mkObject (RDFTerm "a") [] []] 0
             (mkObject (RDFTerm "a") [] []) (VTok 7)); reflexivity.
  - apply (proj2 observers_hold_only_self
             [New DefaultSparqlEndpoint; New (DefaultVarAllTerms 0);
              AddObserver 1 (VTok 7); AddObserver 1 (VTok 8);
              RemoveObserver 1 (VTok 7)]
             []
             [mkObject DefaultSparqlEndpoint [1] [];
              mkObject (DefaultVarAllTerms 0) [] [VRef 1]]
             self_observed_nil eq_refl
             1 (mkObject (DefaultVarAllTerms 0) [] [VRef 1]) eq_refl).
Defined.

(** ** The dataset behind a table *)

(** C8.  On every tabular source [getDatasetSource()] returns: [undefined]
    (the absent value) on a plain [TabularSource], the [datasetSource] given
    to the constructor on a [SelectQuerySource] and on a
    [DefaultVarAllTerms], and the same after any further calls. *)
Theorem getDatasetSource_returns :
  (∀ (h : heap) n o,
     h !! n = Some o → family_of (okind o) = Tabular →
     ∃ r, getDatasetSource n h = Done (r, h)) ∧
  (∀ (h h1 h2 : heap) type n cs,
     new_TabularSource type h = Done (n, h1) → run cs h1 = Done (tt, h2) →
     getDatasetSource n h2 = Done (None, h2)) ∧
  (∀ (h h1 h2 : heap) output selectQuery datasetSource bindingSources n cs,
     new_SelectQuerySource output selectQuery datasetSource bindingSources h
       = Done (n, h1) →
     run cs h1 = Done (tt, h2) →
     getDatasetSource n h2 = Done (Some datasetSource, h2)) ∧
  (∀ (h h1 h2 : heap) datasetSource n cs,
     new_DefaultVarAllTerms datasetSource h = Done (n, h1) →
     run cs h1 = Done (tt, h2) →
     getDatasetSource n h2 = Done (Some datasetSource, h2)).
Proof.
  assert (∀ k (h h1 h2 : heap) n cs,
    family_of k = Tabular →
    new k h = Done (n, h1) → run cs h1 = Done (tt, h2) →
    getDatasetSource n h2 = Done (dataset_of k, h2)) as Hnew.
  { intros k h h1 h2 n cs Hf (o & Hn & Hk & _)%new_lookup Hrun%run_kinds_kept.
    destruct (Hrun n o Hn) as (o2 & Hn2 & Hk2).
    rewrite (getDatasetSource_run _ _ _ Hn2); congruence. }
  split; [|split; [|split]].
  - intros h n o Hn Hf. eexists. by apply getDatasetSource_run.
  - intros h h1 h2 type n cs. by apply (Hnew (TabularSource type)).
  - intros h h1 h2 out q ds bs n cs. by apply (Hnew (SelectQuerySource out q ds bs)).
  - intros h h1 h2 ds n cs. by apply (Hnew (DefaultVarAllTerms ds)).
Qed.

Lemma getDatasetSource_returns_witness :
  (∃ r, getDatasetSource 0 [mkObject (TabularSource "t") [] []]
        = Done (r, [mkObject (TabularSource "t") [] []])) ∧
  getDatasetSource 0 [mkObject (TabularSource "t") [] [VRef 0]]
    = Done (None, [mkObject (TabularSource "t") [] [VRef 0]]) ∧
  getDatasetSource 1
      [mkObject DefaultSparqlEndpoint [1] [];
       mkObject (SelectQuerySource (Build_VarMapping None []) "q" 0 []) [] [VRef 1]]
    = Done (Some 0,
      [mkObject DefaultSparqlEndpoint [1] [];
       mkObject (SelectQuerySource (Build_VarMapping None []) "q" 0 []) [] [VRef 1]]) ∧
  getDatasetSource 1
      [mkObject DefaultSparqlEndpoint [] []; mkObject (DefaultVarAllTerms 0) [] []]
    = Done (Some 0,
      [mkObject DefaultSparqlEndpoint [] []; mkObject (DefaultVarAllTerms 0) [] []]).
Proof.
  split; [|split; [|split]].
  - apply (proj1 getDatasetSource_returns
             [mkObject (TabularSource "t") [] []] 0
             (mkObject (TabularSource "t") [] [])); reflexivity.
  - apply (proj1 (proj2 getDatasetSource_returns)
             [] [mkObject (TabularSource "t") [] []] _ "t" 0
             [AddObserver 0 (VTok 3)]); reflexivity.
  - apply (proj1 (proj2 (proj2 getDatasetSource_returns))
             [mkObject DefaultSparqlEndpoint [] []]
             [mkObject DefaultSparqlEndpoint [1] [];
              mkObject (SelectQuerySource (Build_VarMapping None []) "q" 0 []) [] []]
             _ (Build_VarMapping None []) "q" 0 [] 1
             [AddObserver 1 (VTok 3)]); reflexivity.
  - apply (proj2 (proj2 (proj2 getDatasetSource_returns))
             [mkObject DefaultSparqlEndpoint [] []]
             [mkObject DefaultSparqlEndpoint [1] [];
              mkObject (DefaultVarAllTerms 0) [] []]
             _ 0 1 [Detache 1]); reflexivity.
Defined.

(** ** Where the code leaves the specified contract *)

(** C3.  [addObserver(o)] pushes [this], not [o]: on a fresh term source
    and on a fresh tabular source, after [addObserver(o)] and
    [removeObserver(o)] with a token [o] the observer array still holds the
    source itself and [hasObserver()] still answers [true]. *)
Theorem addObserver_ignores_its_argument :
  ∀ (t : string) (tok : nat),
    observer_round_trip (RDFTerm t) (VTok tok) []
      = Done ((true, [VRef 0]), [mkObject (RDFTerm t) [] [VRef 0]]) ∧
    observer_round_trip (TabularSource t) (VTok tok) []
      = Done ((true, [VRef 0]), [mkObject (TabularSource t) [] [VRef 0]]).
Proof. intros t tok. split; reflexivity. Qed.

(** C1.  The end-to-end scenario with a token of the client: the table is
    not observed at first, table and endpoint are observed after
    [addObserver], and the endpoint has no consumer after [detache()]; but
    after [removeObserver(consumerToken)] table and endpoint are still
    observed, the observer array of the table holding the table itself. *)
Theorem scenario_leaves_table_observed :
  ∀ (tok fuel : nat),
    scenario (S (S fuel)) (VTok tok) []
    = Done ((false, (true, true), (true, true), []),
            [ mkObject DefaultSparqlEndpoint [] [];
              mkObject (DefaultVarAllTerms 0) [] [VRef 1] ]).
Proof. intros tok fuel. reflexivity. Qed.

(** C2.  [Object.values] of a map built with [new Map(entries)] is empty,
    so the constructor of [DatasetBuilder] registers the builder with the
    default graph source only: whatever the entries, the consumer array of
    the second graph source stays empty. *)
Theorem DatasetBuilder_skips_named_graphs :
  ∀ (entries : list (loc * loc)),
    new_DatasetBuilder 2 (newMap entries) two_graphs_store
    = Done (4,
        [ mkObject DefaultSparqlEndpoint [2; 3] [];
          mkObject (RDFTerm "g1") [] [];
          mkObject (GraphSelector 0 "g0") [4] [];
          mkObject (GraphSelector 0 "g1") [] [];
          mkObject (DatasetBuilder 2 (newMap entries)) [] [] ]).
Proof. intros entries. reflexivity. Qed.

(** C4.  [detache()] of [VarFromSelectQuery] and of [SelectQuerySource]
    unregisters from the dataset source only: the parameter term source and
    the binding table still list the detached object as a consumer. *)
Theorem detache_keeps_params_and_bindings :
  param_release []
    = Done ((2, [2], [2], []),
        [ mkObject DefaultSparqlEndpoint [] [];
          mkObject (RDFTerm "p") [2] [];
          mkObject (VarFromSelectQuery "x" "q" 0 (newMap [("a", 1)])) [] [] ]) ∧
  binding_release []
    = Done ((2, [2], [2], [1]),
        [ mkObject DefaultSparqlEndpoint [1] [];
          mkObject (DefaultVarAllTerms 0) [2] [];
          mkObject
            (SelectQuerySource (Build_VarMapping None []) "q" 0
               [Build_TabularSourceAndMapping 1 (Build_VarMapping (Some "x") [])])
            [] [] ]).
Proof. split; reflexivity. Qed.

(** * Further properties of the code *)

(** ** Observation is reachability of an observer *)

Lemma hasObserver_true (h : heap) m :
  hasObserver m h = Done (true, h) ↔
  ∃ o, h !! m = Some o ∧ directly_observed o = true.
Proof.
  split.
  - destruct (h !! m) as [o|] eqn:Hm.
    + destruct (has_observers (family_of (okind o))) eqn:Hf.
      * rewrite (hasObserver_run _ _ _ Hm Hf). intros [= Hlen].
        exists o. split; [done|]. unfold directly_observed. by rewrite Hf, Hlen.
      * by rewrite (proj2 (proj2 (observer_methods_absent m (VRef 0) _ _ Hm Hf))).
    + unfold hasObserver, observers_of, mbind, M_bind, deref. by rewrite Hm.
  - intros (o & Hm & [Hf Hlen]%andb_true_iff).
    by rewrite (hasObserver_run _ _ _ Hm Hf), Hlen.
Qed.

Lemma Observed_downstream (h : heap) n : Observed h n → observer_downstream h n.
Proof.
  intros [fuel Hrun]. revert n Hrun.
  induction fuel as [|fuel IH]; intros n Hrun; [done|].
  destruct (h !! n) as [o|] eqn:Hn; [|simpl in Hrun; by rewrite Hn in Hrun].
  rewrite (isObserved_rec_S _ _ _ _ Hn) in Hrun.
  destruct (directly_observed o) eqn:Hd.
  - exists n. split; [done|]. apply hasObserver_true. by exists o.
  - apply some_true in Hrun as (c & Hc & Hrun).
    destruct (IH c Hrun) as (m & Hcm & Hm). exists m. split; [|done].
    eapply rtc_l; [|done]. by exists o.
Qed.

Lemma downstream_Observed (h : heap) n :
  closed h → acyclic h → n < length h → observer_downstream h n → Observed h n.
Proof.
  intros Hcl Hac Hn (m & Hnm & (o & Hm & Hd)%hasObserver_true).
  revert Hn. induction Hnm as [n|n c m Hnc Hcm IH]; intros Hn.
  - exists 1. by rewrite (isObserved_rec_S _ _ _ _ Hm), Hd.
  - destruct (IH Hm (Hcl _ _ Hnc)) as [fuel' Hc].
    destruct Hnc as (on & Hon & Hin).
    destruct (isObserved_rec_terminates h n Hcl Hac Hn) as [b Hb].
    exists (length h). rewrite Hb. f_equal.
    apply (isObserved_rec_unfold _ _ _ _ _ Hon Hb). right.
    exists c. split; [done|]. by exists fuel'.
Qed.

Lemma Observed_at_length (h : heap) n :
  closed h → acyclic h → n < length h →
  Observed h n → isObserved_rec (length h) h n = Done true.
Proof.
  intros Hcl Hac Hn [fuel Hrun].
  destruct (isObserved_rec_terminates h n Hcl Hac Hn) as [b Hb].
  pose proof (isObserved_rec_mono _ (length h `max` fuel) _ _ _
                (Nat.le_max_l _ _) Hb) as H1.
  pose proof (isObserved_rec_mono _ (length h `max` fuel) _ _ _
                (Nat.le_max_r _ _) Hrun) as H2.
  congruence.
Qed.

(** X4.  In a store whose consumer edges form a dag, [isObserved()] on a
    source returns, and it answers [true] exactly when the source itself or
    some source downstream of it along consumer edges has an observer. *)
Theorem isObserved_iff_observer_downstream :
  ∀ (h : heap) n,
    closed h → acyclic h → n < length h →
    ∃ b, isObserved (length h) n h = Done (b, h) ∧
         (b = true ↔ observer_downstream h n).
Proof.
  intros h n Hcl Hac Hn.
  destruct (isObserved_rec_terminates h n Hcl Hac Hn) as [b Hb].
  exists b. split; [by apply isObserved_run|]. split.
  - intros ->. apply Observed_downstream. by exists (length h).
  - intros Hdown%downstream_Observed; [|done..].
    apply Observed_at_length in Hdown; [|done..]. congruence.
Qed.

Lemma isObserved_iff_observer_downstream_witness :
  ∃ b, isObserved 2 0 observed_table_store = Done (b, observed_table_store) ∧
       (b = true ↔ observer_downstream observed_table_store 0).
Proof.
  apply (isObserved_iff_observer_downstream observed_table_store 0).
  - apply closedb_closed. reflexivity.
  - apply increasing_acyclic. reflexivity.
  - simpl. lia.
Defined.

(** ** What removals and observers do to observation *)

Lemma tc_edge_mono (h h2 : heap) n m :
  (∀ q x, edge h2 q x → edge h q x) → tc (edge h2) n m → tc (edge h) n m.
Proof.
  intros Hsub. induction 1 as [a b Hab|a b c Hab _ IH].
  - apply tc_once. by apply Hsub.
  - eapply tc_l; [|done]. by apply Hsub.
Qed.

(** What a removal leaves of an object: its class and fields, and a
    sub-array of its observers. *)
Lemma removal_fields c (h h2 : heap) m o2 :
  removal c → exec c h = Done (tt, h2) → h2 !! m = Some o2 →
  ∃ o, h !! m = Some o ∧ okind o2 = okind o ∧
       sublist (observers o2) (observers o).
Proof.
  intros Hrem Hrun%exec_inv Hm. destruct c as [k|p c|p c|n v|n v|n]; try done.
  - subst h2. apply sweep_fields in Hm as (o & Ho & Hk & Hobs & _).
    exists o. by rewrite Hobs.
  - subst h2. rewrite list_lookup_alter in Hm.
    case_decide; [subst m|by exists o2].
    destruct (h !! n) as [o|] eqn:Hn; [|done]. injection Hm as <-.
    exists o. repeat split. apply remove_first_sublist.
  - destruct Hrun as (o' & ps & _ & _ & ->).
    apply sweep_fields in Hm as (o & Ho & Hk & Hobs & _).
    exists o. by rewrite Hobs.
Qed.

Lemma removal_edge c (h h2 : heap) q x :
  removal c → exec c h = Done (tt, h2) → edge h2 q x → edge h q x.
Proof.
  intros Hrem Hrun Hedge.
  destruct (exec_edge _ _ _ _ _ Hrun Hedge) as [?|Hnew]; [done|].
  by destruct c.
Qed.

(** X9.  [removeConsumer], [removeObserver] and [detache] never make a
    source observed: in a store whose consumer edges form a dag, a source
    on which [isObserved()] answers [true] after such a call answered [true]
    before it. *)
Theorem removal_never_makes_observed :
  ∀ (c : call) (h h2 : heap) n fuel,
    closed h → acyclic h → removal c →
    exec c h = Done (tt, h2) →
    isObserved fuel n h2 = Done (true, h2) →
    isObserved (length h) n h = Done (true, h).
Proof.
  intros c h h2 n fuel Hcl Hac Hrem Hrun Hobs%isObserved_run.
  assert (n < length h) as Hn.
  { destruct fuel as [|fuel]; [done|]. simpl in Hobs.
    destruct (h2 !! n) as [o2|] eqn:Hn2; [|done].
    destruct (removal_fields _ _ _ _ _ Hrem Hrun Hn2) as (o & Ho & _).
    by eapply lookup_lt_Some. }
  apply isObserved_run, Observed_at_length; [done..|].
  apply downstream_Observed; [done..|].
  destruct (Observed_downstream h2 n (ex_intro _ fuel Hobs))
    as (m & Hnm & (o2 & Hm2 & [Hf Hlen]%andb_true_iff)%hasObserver_true).
  exists m. split.
  - eapply rtc_subrel; [|done]. intros q x. by apply (removal_edge c).
  - destruct (removal_fields _ _ _ _ _ Hrem Hrun Hm2) as (o & Ho & Hk & Hsub).
    apply hasObserver_true. exists o. split; [done|].
    unfold directly_observed. rewrite <- Hk, Hf. simpl.
    apply Nat.ltb_lt. apply Nat.ltb_lt in Hlen.
    apply sublist_length in Hsub. lia.
Qed.

Lemma removal_never_makes_observed_witness :
  isObserved 2 1 observed_table_store = Done (true, observed_table_store).
Proof.
  apply (removal_never_makes_observed (Detache 1)
           observed_table_store
           [mkObject DefaultSparqlEndpoint [] [];
            mkObject (DefaultVarAllTerms 0) [] [VRef 1]] 1 1).
  - apply closedb_closed. reflexivity.
  - apply increasing_acyclic. reflexivity.
  - exact I.
  - reflexivity.
  - reflexivity.
Defined.

Lemma alter_observers_edge_back F n (h : heap) q c :
  edge h q c → edge (alter (on_observers F) n h) q c.
Proof.
  intros (o & Hq & Hc). unfold edge. rewrite list_lookup_alter.
  case_decide; [subst q|by exists o].
  rewrite Hq. eexists. split; [done|]. done.
Qed.

Lemma add_to_nonempty {A : Type} `{EqDecision A} (x : A) (l : list A) :
  0 < length (add_to x l).
Proof.
  unfold add_to, push. destruct (includes l x) eqn:Hi.
  - apply includes_true in Hi. destruct l; [by apply elem_of_nil in Hi|].
    simpl. lia.
  - rewrite length_app. simpl. lia.
Qed.

(** X10.  Attaching an observer to a term or tabular source makes every
    source upstream of it observed: in a store whose consumer edges form a
    dag, after [n.addObserver(v)], whatever [v] is, [isObserved()] answers
    [true] on every source from which [n] is reached along consumer
    edges. *)
Theorem addObserver_observes_upstream :
  ∀ (h : heap) n o v p,
    closed h → acyclic h →
    h !! n = Some o → has_observers (family_of (okind o)) = true →
    rtc (edge h) p n →
    ∃ h1, addObserver n v h = Done (tt, h1) ∧
          isObserved (length h1) p h1 = Done (true, h1).
Proof.
  intros h n o v p Hcl Hac Hn Hf Hpn.
  rewrite (addObserver_run _ _ _ _ Hn Hf). eexists. split; [done|].
  set (h1 := alter _ n h).
  assert (length h1 = length h) as Hlen by apply length_alter.
  assert (∀ q x, edge h1 q x → edge h q x) as Hsub
    by (intros q x; apply alter_observers_edge).
  assert (closed h1) as Hcl1.
  { intros q x Hqx%Hsub. rewrite Hlen. by eapply Hcl. }
  assert (acyclic h1) as Hac1.
  { intros q Hq. apply (Hac q). by eapply tc_edge_mono. }
  assert (p < length h1) as Hp.
  { rewrite Hlen. apply rtc_inv in Hpn as [->|(y & (op & Hop & _) & _)];
      by eapply lookup_lt_Some. }
  apply isObserved_run, Observed_at_length; [done..|].
  apply downstream_Observed; [done..|].
  exists n. split.
  - eapply rtc_subrel; [|done]. intros q x. apply alter_observers_edge_back.
  - apply hasObserver_true. eexists. split.
    + unfold h1. by rewrite list_lookup_alter_eq, Hn.
    + unfold directly_observed. simpl. rewrite Hf. simpl.
      apply Nat.ltb_lt, add_to_nonempty.
Qed.

Lemma addObserver_observes_upstream_witness :
  ∃ h1,
    addObserver 1 (VTok 3)
      [mkObject DefaultSparqlEndpoint [1] []; mkObject (DefaultVarAllTerms 0) [] []]
      = Done (tt, h1) ∧
    isObserved (length h1) 0 h1 = Done (true, h1).
Proof.
  apply (addObserver_observes_upstream
           [mkObject DefaultSparqlEndpoint [1] [];
            mkObject (DefaultVarAllTerms 0) [] []]
           1 (mkObject (DefaultVarAllTerms 0) [] []) (VTok 3) 0).
  - apply closedb_closed. reflexivity.
  - apply increasing_acyclic. reflexivity.
  - reflexivity.
  - reflexivity.
  - apply rtc_once. eexists. split; [reflexivity | left].
Defined.

(** ** Construction and observation *)

Lemma some_app {A : Type} (f : A → result bool) (l1 l2 : list A) :
  some f (l1 ++ l2)
  = match some f l1 with
    | Done false => some f l2
    | r => r
    end.
Proof.
  induction l1 as [|x l1 IH]; simpl; [done|].
  by destruct (f x) as [[|]| |].
Qed.

(** X5.  Constructing a source does not change what [isObserved()] answers
    on the sources that were there, and the new source is not observed:
    with arguments that are objects of a closed store, every answer
    [isObserved()] gave before the constructor call it gives after it. *)
Theorem new_keeps_answers :
  ∀ (k : kind) (h h1 : heap) c,
    closed h → allocated (arguments k) h = true →
    new k h = Done (c, h1) →
    (∀ fuel, isObserved (S fuel) c h1 = Done (false, h1)) ∧
    (∀ n fuel b,
       isObserved fuel n h = Done (b, h) →
       isObserved (S fuel) n h1 = Done (b, h1)).
Proof.
  intros k h h1 c Hcl Hargs Hnew.
  destruct (new_consumers _ _ _ _ Hcl Hargs Hnew) as (-> & Hc & Hold).
  assert (∀ fuel, isObserved_rec (S fuel) h1 (length h) = Done false) as Hfresh.
  { intros fuel. rewrite (isObserved_rec_S _ _ _ _ Hc).
    unfold directly_observed. simpl. by rewrite andb_false_r. }
  split; [intros fuel; by apply isObserved_run|].
  intros n fuel b Hrun%isObserved_run. apply isObserved_run.
  revert n b Hrun. induction fuel as [|fuel IH]; intros n b Hrun; [done|].
  destruct (h !! n) as [o|] eqn:Hn; [|simpl in Hrun; by rewrite Hn in Hrun].
  rewrite (isObserved_rec_S _ _ _ _ Hn) in Hrun.
  rewrite (isObserved_rec_S _ _ _ _ (Hold n o Hn)).
  assert (∀ b', some (isObserved_rec fuel h) (consumers o) = Done b' →
                some (isObserved_rec (S fuel) h1) (consumers o) = Done b') as Hsome.
  { intros b'. apply some_mono. intros x bx _. apply IH. }
  case_bool_decide.
  - change (directly_observed (on_consumers _ o)) with (directly_observed o).
    destruct (directly_observed o); [done|].
    change (consumers (on_consumers (λ l, l ++ [length h]) o))
      with (consumers o ++ [length h]).
    rewrite some_app, (Hsome _ Hrun). destruct b; [done|].
    cbn [some]. by rewrite Hfresh.
  - destruct (directly_observed o); [done|]. by apply Hsome.
Qed.

Lemma new_keeps_answers_witness :
  (∀ fuel,
     isObserved (S fuel) 2
       [ mkObject DefaultSparqlEndpoint [1; 2] [];
         mkObject (DefaultVarAllTerms 0) [] [VRef 1];
         mkObject (GraphSelector 0 "g") [] [] ]
     = Done (false,
       [ mkObject DefaultSparqlEndpoint [1; 2] [];
         mkObject (DefaultVarAllTerms 0) [] [VRef 1];
         mkObject (GraphSelector 0 "g") [] [] ])) ∧
  (∀ n fuel b,
     isObserved fuel n observed_table_store = Done (b, observed_table_store) →
     isObserved (S fuel) n
       [ mkObject DefaultSparqlEndpoint [1; 2] [];
         mkObject (DefaultVarAllTerms 0) [] [VRef 1];
         mkObject (GraphSelector 0 "g") [] [] ]
     = Done (b,
       [ mkObject DefaultSparqlEndpoint [1; 2] [];
         mkObject (DefaultVarAllTerms 0) [] [VRef 1];
         mkObject (GraphSelector 0 "g") [] [] ])).
Proof.
  apply (new_keeps_answers (GraphSelector 0 "g") observed_table_store).
  - apply closedb_closed. reflexivity.
  - reflexivity.
  - reflexivity.
Defined.

(** ** Round trips of the ledger *)

Lemma remove_first_other (l : list loc) c x :
  x ≠ c → x ∈ l → x ∈ remove_first l c.
Proof.
  intros Hne. induction l as [|y l IH]; simpl; [done|].
  rewrite elem_of_cons. intros [<-|Hin].
  - rewrite decide_False by done. left.
  - destruct (decide (y = c)); [done | right; auto].
Qed.

(** X6.  Registering a consumer that was not registered and removing it
    again restores the store; removing a registered consumer and adding it
    again moves it to the end of the (duplicate-free) consumer array. *)
Theorem addConsumer_removeConsumer_round_trip :
  ∀ (h : heap) p c o,
    h !! p = Some o →
    (c ∉ consumers o →
     (addConsumer p c;; removeConsumer p c) h = Done (tt, h)) ∧
    (NoDup (consumers o) →
     (removeConsumer p c;; addConsumer p c) h
     = Done (tt, <[p := mkObject (okind o)
                          (remove_first (consumers o) c ++ [c])
                          (observers o)]> h)).
Proof.
  intros h p c o Hp. split.
  - intros Hc. unfold mbind, M_bind. rewrite addConsumer_run by eauto.
    rewrite removeConsumer_run by (rewrite list_lookup_alter_eq, Hp; eauto).
    rewrite list_alter_alter_eq. do 2 f_equal.
    apply (alter_lookup_id _ _ _ o Hp).
    unfold compose, on_consumers, add_to, push. simpl.
    rewrite (proj2 (includes_false _ _) Hc), remove_first_snoc by done.
    by destruct o.
  - intros Hnd. unfold mbind, M_bind. rewrite removeConsumer_run by eauto.
    rewrite addConsumer_run by (rewrite list_lookup_alter_eq, Hp; eauto).
    rewrite list_alter_alter_eq. do 2 f_equal.
    rewrite <- (insert_alter_lookup _ _ _ o Hp).
    unfold compose, on_consumers, add_to, push. simpl.
    by rewrite (proj2 (includes_false _ _) (remove_first_NoDup _ c Hnd)).
Qed.

Lemma addConsumer_removeConsumer_round_trip_witness :
  (addConsumer 0 2;; removeConsumer 0 2) [mkObject DefaultSparqlEndpoint [1] []]
    = Done (tt, [mkObject DefaultSparqlEndpoint [1] []]) ∧
  (removeConsumer 0 1;; addConsumer 0 1) [mkObject DefaultSparqlEndpoint [1; 2] []]
    = Done (tt, [mkObject DefaultSparqlEndpoint [2; 1] []]).
Proof.
  split.
  - apply (proj1 (addConsumer_removeConsumer_round_trip
                    [mkObject DefaultSparqlEndpoint [1] []] 0 2
                    (mkObject DefaultSparqlEndpoint [1] []) eq_refl)).
    apply includes_false. reflexivity.
  - apply (proj2 (addConsumer_removeConsumer_round_trip
                    [mkObject DefaultSparqlEndpoint [1; 2] []] 0 1
                    (mkObject DefaultSparqlEndpoint [1; 2] []) eq_refl)).
    apply (bool_decide_eq_true_1 (NoDup [1; 2])). reflexivity.
Defined.

(** X7.  [addConsumer(c)] and [removeConsumer(c)] on a source [p] return
    and change the consumer array of [p] only: every other object, and the
    class, fields and observers of [p], stay as they were.  After
    [addConsumer] the array holds what it held and [c]; after
    [removeConsumer] on a duplicate-free array it holds what it held except
    [c]. *)
Theorem registration_touches_one_array :
  ∀ (h : heap) p c o,
    h !! p = Some o →
    (∃ h1 o1,
       addConsumer p c h = Done (tt, h1) ∧ length h1 = length h ∧
       (∀ q, q ≠ p → h1 !! q = h !! q) ∧
       h1 !! p = Some o1 ∧ okind o1 = okind o ∧ observers o1 = observers o ∧
       ∀ x, x ∈ consumers o1 ↔ x ∈ consumers o ∨ x = c) ∧
    (∃ h2 o2,
       removeConsumer p c h = Done (tt, h2) ∧ length h2 = length h ∧
       (∀ q, q ≠ p → h2 !! q = h !! q) ∧
       h2 !! p = Some o2 ∧ okind o2 = okind o ∧ observers o2 = observers o ∧
       (NoDup (consumers o) →
        ∀ x, x ∈ consumers o2 ↔ x ∈ consumers o ∧ x ≠ c)).
Proof.
  intros h p c o Hp. split.
  - eexists _, _. split; [apply addConsumer_run; eauto|].
    split; [apply length_alter|].
    split; [intros q Hq; by apply list_lookup_alter_ne|].
    split; [by rewrite list_lookup_alter_eq, Hp|].
    split; [done|]. split; [done|]. simpl. intros x. split.
    + apply add_to_elem.
    + unfold add_to, push. destruct (includes (consumers o) c) eqn:Hi.
      * intros [?| ->]; [done | by apply includes_true].
      * rewrite elem_of_app, list_elem_of_singleton. tauto.
  - eexists _, _. split; [apply removeConsumer_run; eauto|].
    split; [apply length_alter|].
    split; [intros q Hq; by apply list_lookup_alter_ne|].
    split; [by rewrite list_lookup_alter_eq, Hp|].
    split; [done|]. split; [done|]. simpl. intros Hnd x. split.
    + intros Hx. split.
      * eapply elem_of_sublist; [done | apply remove_first_sublist].
      * intros ->. by apply (remove_first_NoDup _ c Hnd).
    + intros [Hx Hne]. by apply remove_first_other.
Qed.

Lemma registration_touches_one_array_witness :
  (∃ h1 o1,
     addConsumer 0 2 [mkObject DefaultSparqlEndpoint [1] []] = Done (tt, h1) ∧
     length h1 = 1 ∧
     (∀ q, q ≠ 0 → h1 !! q = [mkObject DefaultSparqlEndpoint [1] []] !! q) ∧
     h1 !! 0 = Some o1 ∧ okind o1 = DefaultSparqlEndpoint ∧ observers o1 = [] ∧
     ∀ x, x ∈ consumers o1 ↔ x ∈ [1] ∨ x = 2) ∧
  (∃ h2 o2,
     removeConsumer 0 2 [mkObject DefaultSparqlEndpoint [1] []] = Done (tt, h2) ∧
     length h2 = 1 ∧
     (∀ q, q ≠ 0 → h2 !! q = [mkObject DefaultSparqlEndpoint [1] []] !! q) ∧
     h2 !! 0 = Some o2 ∧ okind o2 = DefaultSparqlEndpoint ∧ observers o2 = [] ∧
     (NoDup [1] → ∀ x, x ∈ consumers o2 ↔ x ∈ [1] ∧ x ≠ 2)).
Proof.
  apply (registration_touches_one_array
           [mkObject DefaultSparqlEndpoint [1] []] 0 2
           (mkObject DefaultSparqlEndpoint [1] []) eq_refl).
Defined.

(** X8.  On a term or tabular source of a store built by the methods of the
    module, [removeObserver(v)] changes nothing unless [v] is the source
    itself; a second [addObserver], with whatever token, changes nothing;
    and [addObserver(v)] followed by [removeObserver] of the source itself
    leaves the source without observer. *)
Theorem removeObserver_needs_the_source_itself :
  ∀ (h : heap) n o,
    self_observed h →
    h !! n = Some o → has_observers (family_of (okind o)) = true →
    (∀ v, v ≠ VRef n → removeObserver n v h = Done (tt, h)) ∧
    (∀ v v', (addObserver n v;; addObserver n v') h = addObserver n v h) ∧
    (∀ v, (addObserver n v;; removeObserver n (VRef n);; hasObserver n) h
          = Done (false, <[n := mkObject (okind o) (consumers o) []]> h)).
Proof.
  intros h n o Hinv Hn Hf.
  assert (add_to (VRef n) (observers o) = [VRef n]) as Hadd.
  { destruct (Hinv n o Hn) as [->| ->]; [done|].
    unfold add_to. simpl. by rewrite decide_True. }
  assert (∀ F, is_Some (alter (on_observers F) n h !! n) ∧
     ∀ o', alter (on_observers F) n h !! n = Some o' →
           has_observers (family_of (okind o')) = true) as Hkeep.
  { intros F. rewrite list_lookup_alter_eq, Hn. split; [eauto|].
    by intros o' [= <-]. }
  split; [|split].
  - intros v Hv. rewrite (removeObserver_run _ _ _ _ Hn Hf).
    rewrite (alter_lookup_id _ _ _ o Hn); [done|].
    unfold on_observers. destruct (Hinv n o Hn) as [Ho|Ho]; rewrite Ho; simpl.
    + rewrite <- Ho. by destruct o.
    + rewrite decide_False by congruence. rewrite <- Ho. by destruct o.
  - intros v v'. unfold mbind, M_bind. rewrite (addObserver_run _ _ _ _ Hn Hf).
    destruct (Hkeep (add_to (VRef n))) as [[o1 Ho1] Hf1].
    rewrite (addObserver_run _ _ _ _ Ho1 (Hf1 _ Ho1)).
    rewrite list_alter_alter_eq. do 2 f_equal.
    apply list_alter_ext; [|done]. intros o' _.
    unfold compose, on_observers. simpl. by rewrite add_to_idem.
  - intros v. unfold mbind, M_bind. rewrite (addObserver_run _ _ _ _ Hn Hf).
    destruct (Hkeep (add_to (VRef n))) as [[o1 Ho1] Hf1].
    rewrite (removeObserver_run _ _ _ _ Ho1 (Hf1 _ Ho1)).
    rewrite list_alter_alter_eq.
    rewrite <- (insert_alter_lookup _ _ _ o Hn).
    unfold compose, on_observers. simpl. rewrite Hadd. simpl.
    rewrite decide_True by done.
    assert (<[n := mkObject (okind o) (consumers o) []]> h !! n
            = Some (mkObject (okind o) (consumers o) [])) as Hn'.
    { apply list_lookup_insert_eq. by eapply lookup_lt_Some. }
    by rewrite (hasObserver_run _ _ _ Hn' Hf).
Qed.

Lemma removeObserver_needs_the_source_itself_witness :
  (∀ v, v ≠ VRef 1 →
        removeObserver 1 v observed_table_store = Done (tt, observed_table_store)) ∧
  (∀ v v', (addObserver 1 v;; addObserver 1 v') observed_table_store
           = addObserver 1 v observed_table_store) ∧
  (∀ v, (addObserver 1 v;; removeObserver 1 (VRef 1);; hasObserver 1)
          observed_table_store
        = Done (false,
            [ mkObject DefaultSparqlEndpoint [1] [];
              mkObject (DefaultVarAllTerms 0) [] [] ])).
Proof.
  apply (removeObserver_needs_the_source_itself observed_table_store 1
           (mkObject (DefaultVarAllTerms 0) [] [VRef 1])).
  - intros n o Hn. destruct n as [|[|n]]; simpl in Hn; [| |done];
      injection Hn as <-; [by left | by right].
  - reflexivity.
  - reflexivity.
Defined.

(** X11.  For the classes whose [detache()] goes through every producer the
    constructor registered with, constructing a source and detaching it
    leaves every consumer array as it was before the construction: the
    store is the old one with the new, unregistered object appended. *)
Theorem construct_detache_round_trip :
  ∀ (k : kind) (h h1 : heap) c rs,
    closed h → allocated (arguments k) h = true →
    new k h = Done (c, h1) →
    released k = Some rs → (∀ p, p ∈ registered k → p ∈ rs) →
    detache c h1 = Done (tt, h ++ [mkObject k [] []]).
Proof.
  intros k h h1 c rs Hcl Hargs Hnew Hrs Hall.
  destruct (new_consumers _ _ _ _ Hcl Hargs Hnew) as (-> & Hc & Hold).
  apply new_run in Hnew as [_ Hh1].
  assert (length h1 = S (length h)) as Hlen.
  { rewrite Hh1. unfold register. rewrite length_sweep, length_app. simpl. lia. }
  rewrite allocated_Forall in Hargs.
  assert (∀ p, p ∈ rs → p < length h) as Hrs_lt.
  { intros p Hp. by apply Hargs, registered_arguments, (released_registered _ rs). }
  rewrite detache_closed_form, Hc. simpl. rewrite Hrs.
  rewrite (proj2 (allocated_Forall rs h1)); [|intros p Hp%Hrs_lt; lia].
  do 2 f_equal. apply list_eq. intros q.
  unfold unregister. rewrite lookup_sweep.
  destruct (h !! q) as [o|] eqn:Hq.
  - rewrite (Hold q o Hq), (lookup_app_l_Some _ _ _ _ Hq). simpl. f_equal.
    case_bool_decide as Hin.
    + unfold on_consumers. simpl. rewrite iter_remove_first_snoc.
      * by destruct o.
      * intros Hx. assert (edge h q (length h)) as He by (by exists o).
        apply Hcl in He. lia.
      * by apply count_occ_pos_elem, Hall.
    + rewrite (proj1 (count_occ_not_In Nat.eq_dec rs q)); [by destruct o|].
      rewrite <- list_elem_of_In.
      intros Hx. by apply Hin, (released_registered _ rs).
  - apply lookup_ge_None in Hq. destruct (decide (q = length h)) as [->|Hne].
    + rewrite Hc, lookup_alloc. simpl.
      rewrite (proj1 (count_occ_not_In Nat.eq_dec rs (length h))); [done|].
      rewrite <- list_elem_of_In. intros Hx%Hrs_lt. lia.
    + rewrite (proj2 (lookup_ge_None h1 q)) by lia.
      symmetry. apply lookup_ge_None. rewrite length_app. simpl. lia.
Qed.

Lemma construct_detache_round_trip_witness :
  detache 1
    [ mkObject DefaultSparqlEndpoint [1] [];
      mkObject (DatasetMerge [0; 0]) [] [] ]
  = Done (tt,
    [ mkObject DefaultSparqlEndpoint [] [];
      mkObject (DatasetMerge [0; 0]) [] [] ]).
Proof.
  apply (construct_detache_round_trip (DatasetMerge [0; 0])
           [mkObject DefaultSparqlEndpoint [] []] _ 1 [0; 0]).
  - apply closedb_closed. reflexivity.
  - reflexivity.
  - reflexivity.
  - reflexivity.
  - intros p Hp. exact Hp.
Defined.

(** ** Stores built by the methods *)

(** X3.  The calls a client can make keep the ledger invariants: if no
    consumer array holds a reference twice and every reference in a consumer
    array is to an object of the store, the same holds after any sequence
    of constructor, [addConsumer], [removeConsumer], [addObserver],
    [removeObserver] and [detache] calls; so it holds in every store built
    from the empty one. *)
Theorem calls_keep_the_ledger_invariants :
  ∀ (cs : list call) (h0 h : heap),
    unique_consumers h0 → closed h0 →
    run cs h0 = Done (tt, h) →
    ∀ p o, h !! p = Some o →
      NoDup (consumers o) ∧ ∀ c, c ∈ consumers o → c < length h.
Proof.
  intros cs h0 h Hu Hcl Hrun.
  assert (unique_consumers h ∧ closed h) as [Hu' Hcl'].
  { revert Hu Hcl. revert cs h0 h Hrun.
    apply (run_ind (λ h0 h, unique_consumers h0 → closed h0 →
                            unique_consumers h ∧ closed h)); [done|].
    intros c h1 h2 h3 Hc H23 Hu Hcl.
    apply H23; [by eapply exec_unique | by eapply exec_closed]. }
  intros p o Hp. split; [by eapply Hu'|].
  intros c Hc. apply (Hcl' p). by exists o.
Qed.

Lemma calls_keep_the_ledger_invariants_witness :
  NoDup [1; 2] ∧ ∀ c, c ∈ [1; 2] → c < 3.
Proof.
  apply (calls_keep_the_ledger_invariants
           [New DefaultSparqlEndpoint; New (DefaultVarAllTerms 0);
            New (DatasetMerge [0; 0]); AddConsumer 0 1]
           []
           [ mkObject DefaultSparqlEndpoint [1; 2] [];
             mkObject (DefaultVarAllTerms 0) [] [];
             mkObject (DatasetMerge [0; 0]) [] [] ]
           (proj1 well_formed_nil) (proj1 (proj2 well_formed_nil)) eq_refl
           0 (mkObject DefaultSparqlEndpoint [1; 2] []) eq_refl).
Defined.

Lemma registration_symmetry_where_released_witness :
  (∀ p, p ∈ [0; 0] →
     count_occ Nat.eq_dec
       (consumers_at
          [ mkObject DefaultSparqlEndpoint [1] [];
            mkObject (DatasetMerge [0; 0]) [] [] ] p) 1 = 1) ∧
  (∀ rs h2,
     Some [0; 0] = Some rs →
     detache 1
       [ mkObject DefaultSparqlEndpoint [1] [];
         mkObject (DatasetMerge [0; 0]) [] [] ] = Done (tt, h2) →
     (∀ p, p ∈ rs → 1 ∉ consumers_at h2 p) ∧
     (∀ p, p ∈ [0; 0] → p ∉ rs →
        count_occ Nat.eq_dec (consumers_at h2 p) 1 = 1)).
Proof.
  apply (registration_symmetry_where_released (DatasetMerge [0; 0])
           [mkObject DefaultSparqlEndpoint [] []]
           [ mkObject DefaultSparqlEndpoint [1] [];
             mkObject (DatasetMerge [0; 0]) [] [] ] 1).
  - apply closedb_closed. reflexivity.
  - reflexivity.
  - reflexivity.
Defined.

